(** * RSA and Fermat's factorisation attack (RSA.py)

    A shallow embedding of the number-theoretic core of [RSA.py]:
    modular exponentiation, the extended Euclid algorithm and modular
    inverse, the integer square root, the Miller-Rabin test, prime and
    key generation, the cipher and Fermat's attack.

    Python integers are unbounded, so they are [Z]; [%] and [//] are
    floor division, which is [Z.modulo] and [Z.div] for a divisor other
    than zero; [>>] is [Z.shiftr], [&] is [Z.land], [|] is [Z.lor].
    Exceptions are the [Raise] outcome of [result]; a [while] loop runs
    on fuel, and [OutOfFuel] is the outcome of a loop that has not
    finished by then. *)

From Stdlib Require Import ZArith Znumtheory Zdivisibility Zcong Lia List Bool.
From Stdlib Require Import Zmod.ZmodInv.
From Stdlib Require Import Strings.Byte.
Import ListNotations.

#[local] Open Scope Z_scope.

(** ** Outcomes *)

Inductive exn : Type :=
| NoExisteInverso      (* Exception("No existe inverso modular") *)
| ValueError
| ZeroDivisionError
| RecursionError.

Inductive result (A : Type) : Type :=
| Ok (a : A)
| Raise (e : exn)
| OutOfFuel.

Arguments Ok {A} a.
Arguments Raise {A} e.
Arguments OutOfFuel {A}.

Definition rbind {A B : Type} (r : result A) (k : A -> result B) : result B :=
  match r with
  | Ok a => k a
  | Raise e => Raise e
  | OutOfFuel => OutOfFuel
  end.

Declare Scope result_scope.
Delimit Scope result_scope with result.
Notation "'let?' x ':=' r 'in' k" :=
  (rbind r (fun x => k))
  (at level 10, x pattern, r at level 100, k at level 200) : result_scope.
#[local] Open Scope result_scope.

(** [int.bit_length()]: the number of bits of the absolute value. *)
Definition bit_length (n : Z) : Z :=
  if n =? 0 then 0 else Z.log2 (Z.abs n) + 1.

(** ** Funciones matematicas *)

(** The [while b > 0] loop of [exponenciacion_modular]. *)
Fixpoint exponenciacion_bucle (fuel : nat) (resultado a b n : Z) : result Z :=
  if b >? 0 then
    match fuel with
    | O => OutOfFuel
    | S fuel' =>
        let resultado' :=
          if Z.land b 1 =? 0 then resultado else (resultado * a) mod n in
        exponenciacion_bucle fuel' resultado' ((a * a) mod n) (Z.shiftr b 1) n
    end
  else Ok resultado.

Definition exponenciacion_modular (a b n : Z) : result Z :=
  if n =? 0 then Raise ZeroDivisionError
  else exponenciacion_bucle (Z.to_nat (bit_length b)) 1 (a mod n) b n.

(** The [while d % 2 == 0] loop of [descomponer_potencia_dos]. *)
Fixpoint descomponer_bucle (fuel : nat) (d s : Z) : result (Z * Z) :=
  if d mod 2 =? 0 then
    match fuel with
    | O => OutOfFuel
    | S fuel' => descomponer_bucle fuel' (d / 2) (s + 1)
    end
  else Ok (s, d).

Definition descomponer_potencia_dos (n : Z) : result (Z * Z) :=
  descomponer_bucle (Z.to_nat (bit_length (n - 1))) (n - 1) 0.

(** The interpreter bounds the depth of its call stack by
    [sys.getrecursionlimit()], 1000 unless it is changed, and the
    program never changes it: a call made when no frame is left raises
    [RecursionError]. *)
Definition limite_recursion : nat := 1000.

(** [mcd_extendido] is recursive on [(b % a, a)], one frame for each
    call; [marcos] is the number of frames still free when the call is
    made. *)
Fixpoint mcd_extendido (marcos : nat) (a b : Z) : result (Z * Z * Z) :=
  match marcos with
  | O => Raise RecursionError
  | S marcos' =>
      if a =? 0 then Ok (b, 0, 1)
      else
        let? (g, x1, y1) := mcd_extendido marcos' (b mod a) a in
        Ok (g, y1 - (b / a) * x1, x1)
  end.

(** [inverso_modular], called with [marcos] free frames, uses one and
    leaves the others to [mcd_extendido]. *)
Definition inverso_modular (marcos : nat) (a m : Z) : result Z :=
  match marcos with
  | O => Raise RecursionError
  | S marcos' =>
      let? (g, x, _) := mcd_extendido marcos' a m in
      if negb (g =? 1) then Raise NoExisteInverso
      else if m =? 0 then Raise ZeroDivisionError
      else Ok (x mod m)
  end.

(** One Newton step of [raiz_entera]: [(x + n // x) // 2]. *)
Definition paso_newton (n x : Z) : Z := (x + n / x) / 2.

(** The [while True] loop of [raiz_entera]; [n // x] raises for [x = 0]. *)
Fixpoint raiz_bucle (fuel : nat) (n x : Z) : result Z :=
  match fuel with
  | O => OutOfFuel
  | S fuel' =>
      if x =? 0 then Raise ZeroDivisionError
      else
        let y := paso_newton n x in
        if y >=? x then Ok x else raiz_bucle fuel' n y
  end.

(** The starting value [2**(n.bit_length() // 2 + 1)]. *)
Definition raiz_inicio (n : Z) : Z := 2 ^ (bit_length n / 2 + 1).

Definition raiz_entera_con (fuel : nat) (n : Z) : result Z :=
  if n <? 0 then Raise ValueError
  else if n =? 0 then Ok 0
  else raiz_bucle fuel n (raiz_inicio n).

(** Number of iterations granted to the Newton loop. *)
Definition raiz_fuel (n : Z) : nat := Z.to_nat (bit_length n / 2 + 2).

Definition raiz_entera (n : Z) : result Z := raiz_entera_con (raiz_fuel n) n.

(** ** Test de primalidad *)

(** The [for _ in range(0, s - 1, 1)] loop of [ronda_miller_rabin]; it
    is reached only after [exponenciacion_modular] has returned, so [n]
    is not zero there. *)
Fixpoint ronda_bucle (k : nat) (n x : Z) : bool :=
  match k with
  | O => false
  | S k' =>
      let x' := (x * x) mod n in
      if x' =? n - 1 then true else ronda_bucle k' n x'
  end.

Definition ronda_miller_rabin (n a : Z) : result bool :=
  let? (s, d) := descomponer_potencia_dos n in
  let? x := exponenciacion_modular a d n in
  if (x =? 1) || (x =? n - 1) then Ok true
  else Ok (ronda_bucle (Z.to_nat (s - 1)) n x).

(** *** The random source

    The module [random] is a source of integers; it is modelled as the
    sequence of raw values it will hand out, and every draw consumes
    one.  [randrange(lo, hi)] and [getrandbits(k)] map the raw value
    into their range, so every value of the range is the result of
    some source. *)
Definition rng : Type := nat -> Z.

Definition M (A : Type) : Type := rng -> result (A * rng).

Definition ret {A : Type} (a : A) : M A := fun g => Ok (a, g).

Definition raise {A : Type} (e : exn) : M A := fun _ => Raise e.

Definition bind {A B : Type} (c : M A) (k : A -> M B) : M B :=
  fun g => let? (a, g') := c g in k a g'.

Definition lift {A : Type} (r : result A) : M A :=
  fun g => let? a := r in Ok (a, g).

Declare Scope rand_scope.
Delimit Scope rand_scope with rand.
Notation "x <- c ;; k" :=
  (bind c (fun x => k))
  (at level 61, c at next level, right associativity) : rand_scope.
#[local] Open Scope rand_scope.

Definition siguiente : M Z := fun g => Ok (g 0%nat, fun i => g (S i)).

Definition randrange (lo hi : Z) : M Z :=
  if hi <=? lo then raise ValueError
  else v <- siguiente ;; ret (lo + v mod (hi - lo)).

Definition getrandbits (k : Z) : M Z :=
  if k <? 0 then raise ValueError
  else v <- siguiente ;; ret (v mod 2 ^ k).

(** The [for i in range(0, rondas, 1)] loop of [es_primo_probable]. *)
Fixpoint rondas_bucle (k : nat) (n : Z) : M bool :=
  match k with
  | O => ret true
  | S k' =>
      a <- randrange 2 (n - 1) ;;
      r <- lift (ronda_miller_rabin n a) ;;
      if negb r then ret false else rondas_bucle k' n
  end.

Definition es_primo_probable (n rondas : Z) : M bool :=
  if n <? 2 then ret false
  else if (n =? 2) || (n =? 3) then ret true
  else if n mod 2 =? 0 then ret false
  else rondas_bucle (Z.to_nat rondas) n.

(** [1 << (bits - 1)] raises [ValueError] for a negative shift count. *)
Definition generar_impar_aleatorio (bits : Z) : M Z :=
  n <- getrandbits bits ;;
  if bits - 1 <? 0 then raise ValueError
  else ret (Z.lor (Z.lor n (Z.shiftl 1 (bits - 1))) 1).

(** The [while True] loop of [generar_primo] has no bound in the
    source; [fuel] is the number of candidates tried. *)
Fixpoint generar_primo (fuel : nat) (bits : Z) : M Z :=
  match fuel with
  | O => fun _ => OutOfFuel
  | S fuel' =>
      n <- generar_impar_aleatorio bits ;;
      b <- es_primo_probable n 40 ;;
      if b then ret n else generar_primo fuel' bits
  end.

(** ** RSA *)

Definition clave : Type := (Z * Z)%type.

(** Frames left to a function that the program calls from one of its
    demo functions: the module, the demo and the function itself are
    on the stack. *)
Definition marcos_libres : nat := limite_recursion - 3.

Definition generar_claves_rsa (fuel : nat) (bits : Z) : M (clave * clave) :=
  p <- generar_primo fuel bits ;;
  q <- generar_primo fuel bits ;;
  let n := p * q in
  let phi := (p - 1) * (q - 1) in
  let e := 65537 in
  d <- lift (inverso_modular marcos_libres e phi) ;;
  ret ((n, e), (n, d)).

Definition cifrar_rsa (mensaje : Z) (clave_publica : clave) : result Z :=
  let '(n, e) := clave_publica in
  exponenciacion_modular mensaje e n.

Definition descifrar_rsa (cifrado : Z) (clave_privada : clave) : result Z :=
  let '(n, d) := clave_privada in
  exponenciacion_modular cifrado d n.

(** ** Ataque de Fermat *)

(** The [for _ in range(0, K, 1)] loop of [ataque_de_fermat]. *)
Fixpoint fermat_bucle (k : nat) (n x : Z) : result (option (Z * Z)) :=
  match k with
  | O => Ok None
  | S k' =>
      let y2 := x * x - n in
      let? y := raiz_entera y2 in
      if y * y =? y2 then Ok (Some (x - y, x + y))
      else fermat_bucle k' n (x + 1)
  end.

Definition ataque_de_fermat (n K : Z) : result (option (Z * Z)) :=
  let? x := raiz_entera n in
  let x := if x * x <? n then x + 1 else x in
  fermat_bucle (Z.to_nat K) n x.

(** ** Vocabulary of the statements *)

(** [z] is the square of an integer. *)
Definition cuadrado_perfecto (z : Z) : Prop := exists y, y * y = z.

(** Trial division by [2 .. k + 1], to establish that a small number
    is prime. *)
Fixpoint sin_divisor (k : nat) (p : Z) : bool :=
  match k with
  | O => true
  | S k' => negb (p mod (Z.of_nat k' + 2) =? 0) && sin_divisor k' p
  end.

(** The random source after [k] draws. *)
Definition avanzar (k : nat) (g : rng) : rng := fun i => g (k + i)%nat.

(** A source whose first candidate of five bits is 25 and whose forty
    witnesses for it are all 7, followed by the candidate 17. *)
Definition rng_25_17 : rng :=
  fun i => match i with
           | O => 25
           | _ => if (i <=? 40)%nat then 5 else if (i =? 41)%nat then 17 else 0
           end.

(** A source whose candidates of five bits are 17 and then 19. *)
Definition rng_17_19 : rng :=
  fun i => match i with
           | O => 17
           | _ => if (i =? 41)%nat then 19 else 0
           end.

(** A source that hands out the prime [14 * 65537 + 1] twice. *)
Definition rng_917519 : rng :=
  fun i => match i with
           | O => 917519
           | _ => if (i =? 41)%nat then 917519 else 0
           end.

(** ** Demo RSA: text and integers

    [texto_a_entero] and [entero_a_texto] go through the UTF-8 codec
    of the interpreter; the codec is a parameter here ([None] is its
    exception), and the integer side, [int.from_bytes] and
    [int.to_bytes] in big-endian order, is written out. *)

Inductive exn_texto : Type :=
| UnicodeEncodeError
| UnicodeDecodeError
| OverflowError.

Inductive salida (A : Type) : Type :=
| Valor (a : A)
| Error (e : exn_texto).

Arguments Valor {A} a.
Arguments Error {A} e.

Definition byte_a_Z (b : byte) : Z := Z.of_N (Byte.to_N b).

Definition Z_a_byte (z : Z) : byte :=
  match Byte.of_N (Z.to_N z) with
  | Some b => b
  | None => x00
  end.

(** [int.from_bytes(data, "big")]. *)
Definition int_from_bytes (data : list byte) : Z :=
  fold_left (fun acc b => acc * 256 + byte_a_Z b) data 0.

(** The [length] base-256 digits of [n], the most significant first. *)
Fixpoint bytes_big (length : nat) (n : Z) : list byte :=
  match length with
  | O => []
  | S length' => bytes_big length' (n / 256) ++ [Z_a_byte (n mod 256)]
  end.

(** [n.to_bytes(length, "big")], unsigned, for a [length] that is not
    negative: [OverflowError] for a negative [n] and for an [n] that
    does not fit. *)
Definition int_to_bytes (n length : Z) : salida (list byte) :=
  if n <? 0 then Error OverflowError
  else if 256 ^ length <=? n then Error OverflowError
  else Valor (bytes_big (Z.to_nat length) n).

Section Texto.

Variable str : Type.
Variable encode : str -> option (list byte).
Variable decode : list byte -> option str.

Definition texto_a_entero (texto : str) : salida Z :=
  match encode texto with
  | None => Error UnicodeEncodeError
  | Some data => Valor (int_from_bytes data)
  end.

Definition entero_a_texto (entero : Z) : salida str :=
  match int_to_bytes entero ((bit_length entero + 7) / 8) with
  | Error e => Error e
  | Valor data =>
      match decode data with
      | None => Error UnicodeDecodeError
      | Some texto => Valor texto
      end
  end.

End Texto.

(** ** Demo ataques *)

(** [romper_rsa] reads the clock before and after the attack and
    returns the difference beside the message; the two readings are
    arguments here, and their type and subtraction are parameters. *)
Section Reloj.

Variable tiempo : Type.
Variable resta : tiempo -> tiempo -> tiempo.

Definition romper_rsa (cifrado : Z) (clave_publica : clave) (K : Z)
    (inicio fin : tiempo) : result (option Z * tiempo) :=
  let '(n, e) := clave_publica in
  let? factores := ataque_de_fermat n K in
  match factores with
  | None => Ok (None, resta fin inicio)
  | Some (p, q) =>
      let phi := (p - 1) * (q - 1) in
      let? d := inverso_modular marcos_libres e phi in
      let? mensaje_int := descifrar_rsa cifrado (n, d) in
      Ok (Some mensaje_int, resta fin inicio)
  end.

End Reloj.

(** ** More vocabulary *)

(** [data] without its leading zero bytes. *)
Fixpoint sin_ceros (data : list byte) : list byte :=
  match data with
  | x00 :: data' => sin_ceros data'
  | _ => data
  end.

(** The big-endian value of a string of bytes, digit by digit: the
    first byte weighs [256 ^ (len - 1)]. *)
Fixpoint entero_big_endian (data : list byte) : Z :=
  match data with
  | [] => 0
  | b :: data' => byte_a_Z b * 256 ^ Z.of_nat (length data') + entero_big_endian data'
  end.

(** [fibonacci n a b] is the [n]-th term of the sequence that starts
    with [a], [b]; consecutive Fibonacci numbers are the deepest
    inputs of Euclid's algorithm. *)
Fixpoint fibonacci (n : nat) (a b : Z) : Z :=
  match n with
  | O => a
  | S n' => fibonacci n' b (a + b)
  end.

(** The length [entero_a_texto] asks of [to_bytes]. *)
Definition longitud_minima (n : Z) : Z := (bit_length n + 7) / 8.

(** A source whose two candidates of five bits are both 17. *)
Definition rng_17_17 : rng :=
  fun i => match i with
           | O => 17
           | _ => if (i =? 41)%nat then 17 else 0
           end.

(** ** Sanity checks on concrete inputs *)

Example exponenciacion_modular_ej : exponenciacion_modular 7 3 25 = Ok 18.
Proof. reflexivity. Qed.

Example raiz_entera_ej : raiz_entera 99 = Ok 9 /\ raiz_entera 100 = Ok 10.
Proof. split; reflexivity. Qed.

Example inverso_modular_ej :
  inverso_modular limite_recursion 3 7 = Ok 5 /\
  inverso_modular limite_recursion 4 8 = Raise NoExisteInverso.
Proof. split; reflexivity. Qed.

Example ataque_de_fermat_ej : ataque_de_fermat 8633 100 = Ok (Some (89, 97)).
Proof. reflexivity. Qed.

Example ronda_miller_rabin_ej :
  ronda_miller_rabin 25 7 = Ok true /\ ronda_miller_rabin 25 2 = Ok false.
Proof. split; reflexivity. Qed.

(** * Properties *)

(** ** Modular exponentiation *)

(** [b & 1] is zero exactly for an even [b]. *)
Lemma land_1_even b : (Z.land b 1 =? 0) = Z.even b.
Proof.
  change 1 with (Z.ones 1). rewrite Z.land_ones by lia.
  rewrite Z.pow_1_r. rewrite Zeven_mod. reflexivity.
Qed.

Lemma exponenciacion_bucle_le0 fuel r a b n :
  b <= 0 -> exponenciacion_bucle fuel r a b n = Ok r.
Proof.
  intros Hb. destruct fuel; simpl; destruct (Z.gtb_spec b 0); try lia; reflexivity.
Qed.

(** Loop invariant of square-and-multiply: with fuel for every bit of
    [b], the loop returns [r * a ^ b] reduced modulo [n]. *)
Lemma exponenciacion_bucle_spec fuel :
  forall r a b n, n <> 0 -> 0 < b < 2 ^ Z.of_nat fuel ->
    exponenciacion_bucle fuel r a b n = Ok ((r * a ^ b) mod n).
Proof.
  induction fuel as [|fuel IH]; intros r a b n Hn Hb.
  - simpl in Hb. lia.
  - cbn [exponenciacion_bucle].
    destruct (Z.gtb_spec b 0) as [_|]; [|lia].
    rewrite land_1_even, Z.shiftr_div_pow2, Z.pow_1_r by lia.
    rewrite Nat2Z.inj_succ, Z.pow_succ_r in Hb by lia.
    pose proof (Z.div_mod b 2 ltac:(lia)) as Hdm.
    pose proof (Z.mod_pos_bound b 2 ltac:(lia)) as Hm2.
    assert (Hpow : forall h, 0 <= h -> a ^ (2 * h) = (a * a) ^ h).
    { intros h Hh. rewrite Z.pow_mul_r by lia. f_equal. lia. }
    destruct (Z.eq_dec (b / 2) 0) as [Hz|Hnz].
    + assert (b = 1) by lia. subst b. simpl (Z.even 1).
      rewrite exponenciacion_bucle_le0 by (rewrite Hz; lia).
      rewrite Z.pow_1_r. reflexivity.
    + rewrite IH by lia. f_equal.
      rewrite <- Z.mul_mod_idemp_r, Z.mod_pow_l, Z.mul_mod_idemp_r by lia.
      rewrite <- Hpow by lia.
      rewrite Zeven_mod.
      destruct (Z.eqb_spec (b mod 2) 0) as [He|Ho].
      * replace (2 * (b / 2)) with b by lia. reflexivity.
      * rewrite Z.mul_mod_idemp_l by lia.
        assert (Hb1 : a ^ b = a ^ (2 * (b / 2)) * a).
        { replace b with (2 * (b / 2) + 1) at 1 by lia.
          rewrite Z.pow_add_r, Z.pow_1_r by lia. reflexivity. }
        rewrite Hb1. f_equal. lia.
Qed.

Lemma bit_length_bound b : 0 < b -> b < 2 ^ Z.of_nat (Z.to_nat (bit_length b)).
Proof.
  intros Hb. unfold bit_length.
  destruct (Z.eqb_spec b 0); [lia|].
  rewrite Z.abs_eq by lia.
  pose proof (Z.log2_nonneg b).
  rewrite Z2Nat.id by lia.
  apply Z.log2_spec in Hb. replace (Z.log2 b + 1) with (Z.succ (Z.log2 b)) by lia. lia.
Qed.

(** For a positive exponent the result is [a ^ b mod n], for every
    modulus other than zero. *)
Lemma exponenciacion_modular_pos a b n :
  n <> 0 -> 0 < b -> exponenciacion_modular a b n = Ok (a ^ b mod n).
Proof.
  intros Hn Hb. unfold exponenciacion_modular.
  destruct (Z.eqb_spec n 0); [lia|].
  rewrite exponenciacion_bucle_spec;
    [|assumption|split; [assumption|apply bit_length_bound; assumption]].
  rewrite Z.mul_1_l, Z.mod_pow_l. reflexivity.
Qed.

(** Without an iteration the initial [resultado = 1] is returned as
    it is. *)
Lemma exponenciacion_modular_le0 a b n :
  n <> 0 -> b <= 0 -> exponenciacion_modular a b n = Ok 1.
Proof.
  intros Hn Hb. unfold exponenciacion_modular.
  destruct (Z.eqb_spec n 0); [lia|].
  apply exponenciacion_bucle_le0; lia.
Qed.

Lemma exponenciacion_modular_spec a b n :
  1 < n -> 0 <= b -> exponenciacion_modular a b n = Ok (a ^ b mod n).
Proof.
  intros Hn Hb. destruct (Z.eq_dec b 0) as [->|].
  - rewrite exponenciacion_modular_le0 by lia. rewrite Z.pow_0_r, Z.mod_1_l by lia. reflexivity.
  - apply exponenciacion_modular_pos; lia.
Qed.

(** ** Extended Euclid, modular inverse and integer square root *)

(** One level of the recursion, given what the call below returns. *)
Lemma mcd_extendido_paso marcos a b g x1 y1 :
  a <> 0 ->
  mcd_extendido marcos (b mod a) a = Ok (g, x1, y1) ->
  g = (b mod a) * x1 + a * y1 ->
  mcd_extendido (S marcos) a b = Ok (g, y1 - b / a * x1, x1) /\
  g = a * (y1 - b / a * x1) + b * x1.
Proof.
  intros Ha Hrec Hbez. cbn [mcd_extendido].
  destruct (Z.eqb_spec a 0); [contradiction|].
  rewrite Hrec. cbn [rbind]. split; [reflexivity|].
  pose proof (Z.div_mod b a Ha). rewrite Hbez. nia.
Qed.

(** Two steps of Euclid at least halve the first argument, so for
    [0 <= a < 2^k] the recursion fits in [2k + 1] frames; it returns
    Bezout coefficients, and the gcd when [b] is not negative. *)
Lemma mcd_extendido_spec k :
  forall marcos a b, 0 <= a < 2 ^ Z.of_nat k -> (2 * k + 1 <= marcos)%nat ->
    exists g x y,
      mcd_extendido marcos a b = Ok (g, x, y) /\
      g = a * x + b * y /\
      (0 <= b -> g = Z.gcd a b).
Proof.
  assert (Hbase : forall marcos b, (1 <= marcos)%nat ->
            exists g x y, mcd_extendido marcos 0 b = Ok (g, x, y) /\
              g = 0 * x + b * y /\ (0 <= b -> g = Z.gcd 0 b)).
  { intros marcos b Hm. destruct marcos as [|m]; [lia|].
    exists b, 0, 1. split; [reflexivity|]. split; [lia|].
    intros Hb. rewrite Z.gcd_0_l. symmetry. apply Z.abs_eq. exact Hb. }
  induction k as [|k IH]; intros marcos a b Ha Hm.
  - change (2 ^ Z.of_nat 0) with 1 in Ha. assert (a = 0) by lia. subst a.
    apply Hbase. lia.
  - destruct (Z.eq_dec a 0) as [->|Hnz]; [apply Hbase; lia|].
    rewrite Nat2Z.inj_succ, Z.pow_succ_r in Ha by lia.
    destruct marcos as [|m1]; [lia|]. destruct m1 as [|m2]; [lia|].
    pose proof (Z.mod_pos_bound b a ltac:(lia)) as Ha1.
    set (a1 := b mod a) in *.
    assert (Hg1 : Z.gcd a1 a = Z.gcd a b) by (apply Z.gcd_mod; assumption).
    destruct (Z.eq_dec a1 0) as [Hz|Hnz1].
    + (* the remainder is zero: one more call *)
      assert (Hrec : mcd_extendido (S m2) a1 a = Ok (a, 0, 1)).
      { rewrite Hz. reflexivity. }
      destruct (mcd_extendido_paso (S m2) a b a 0 1 Hnz Hrec ltac:(fold a1; lia))
        as [Hrun Hbez].
      eexists _, _, _. split; [exact Hrun|]. split; [exact Hbez|].
      intros _. rewrite <- Hg1, Hz, Z.gcd_0_l. symmetry. apply Z.abs_eq. lia.
    + pose proof (Z.mod_pos_bound a a1 ltac:(lia)) as Ha2.
      pose proof (Z.div_mod a a1 Hnz1) as Hdm.
      assert (Hq : 1 <= a / a1) by (apply Z.div_le_lower_bound; lia).
      destruct (IH m2 (a mod a1) a1) as (g & x2 & y2 & Hrec2 & Hbez2 & Hgcd2);
        [nia|lia|].
      destruct (mcd_extendido_paso m2 a1 a g x2 y2 Hnz1 Hrec2 Hbez2)
        as [Hrec1 Hbez1].
      destruct (mcd_extendido_paso (S m2) a b g _ _ Hnz Hrec1 ltac:(fold a1; lia))
        as [Hrun Hbez].
      eexists _, _, _. split; [exact Hrun|]. split; [exact Hbez|].
      intros _. rewrite Hgcd2 by lia. rewrite <- Hg1. apply Z.gcd_mod. assumption.
Qed.

Lemma bit_length_cota a : 0 <= a -> 0 <= bit_length a /\ a < 2 ^ bit_length a.
Proof.
  intros Ha. unfold bit_length.
  destruct (Z.eqb_spec a 0) as [->|Hnz]; [split; [lia|reflexivity]|].
  rewrite Z.abs_eq by lia.
  pose proof (Z.log2_nonneg a).
  pose proof (Z.log2_spec a ltac:(lia)) as [_ Hhi].
  split; [lia|]. replace (Z.log2 a + 1) with (Z.succ (Z.log2 a)) by lia. exact Hhi.
Qed.

(** [inverso_modular] with frames for Euclid's recursion: twice the
    bit length of [a], and two. *)
Lemma inverso_modular_spec marcos a m :
  0 <= a -> 1 <= m -> 2 * bit_length a + 2 <= Z.of_nat marcos ->
  (Z.gcd a m = 1 ->
     exists x, inverso_modular marcos a m = Ok x /\ 0 <= x < m /\
               (a * x) mod m = 1 mod m) /\
  (Z.gcd a m <> 1 -> inverso_modular marcos a m = Raise NoExisteInverso).
Proof.
  intros Ha Hm Hmarcos.
  destruct (bit_length_cota a Ha) as [Hk0 Hk].
  destruct marcos as [|marcos]; [lia|]. cbn [inverso_modular].
  destruct (mcd_extendido_spec (Z.to_nat (bit_length a)) marcos a m)
    as (g & x & y & Hrun & Hbez & Hgcd); [rewrite Z2Nat.id by lia; lia|lia|].
  rewrite Hrun. cbn [rbind].
  specialize (Hgcd ltac:(lia)).
  split; intros Hg.
  - destruct (Z.eqb_spec g 1); [|lia]. cbn [negb].
    destruct (Z.eqb_spec m 0); [lia|].
    exists (x mod m). split; [reflexivity|]. split.
    + apply Z.mod_pos_bound. lia.
    + rewrite Z.mul_mod_idemp_r by lia.
      replace (a * x) with (1 + (- y) * m) by lia.
      apply Z.mod_add. lia.
  - destruct (Z.eqb_spec g 1); [lia|]. reflexivity.
Qed.

(** The public exponent 65537 has 17 bits: 36 frames are enough. *)
Lemma inverso_modular_65537 m :
  1 <= m ->
  (Z.gcd 65537 m = 1 ->
     exists x, inverso_modular marcos_libres 65537 m = Ok x /\ 0 <= x < m /\
               (65537 * x) mod m = 1 mod m) /\
  (Z.gcd 65537 m <> 1 ->
     inverso_modular marcos_libres 65537 m = Raise NoExisteInverso).
Proof.
  intros Hm. apply inverso_modular_spec; [lia|assumption|].
  vm_compute. discriminate.
Qed.

(** *** Newton iteration for the integer square root *)

Section Newton.

Variable n : Z.
Hypothesis Hn : 0 <= n.

(** An iterate never falls below the floor of the root. *)
Lemma paso_newton_lower x : 0 < x -> Z.sqrt n <= paso_newton n x.
Proof.
  intros Hx. unfold paso_newton.
  pose proof (Z.sqrt_spec n Hn) as [Hlo _].
  pose proof (Z.sqrt_nonneg n).
  apply Z.div_le_lower_bound; [lia|].
  enough (2 * Z.sqrt n - x <= n / x) by lia.
  apply Z.div_le_lower_bound; [lia|].
  pose proof (Z.square_nonneg (Z.sqrt n - x)). nia.
Qed.

(** Above the root, a step at least halves the distance to it. *)
Lemma paso_newton_upper x :
  Z.sqrt n < x -> 2 * paso_newton n x <= x + Z.sqrt n.
Proof.
  intros Hx. unfold paso_newton.
  pose proof (Z.sqrt_spec n Hn) as [_ Hhi].
  pose proof (Z.sqrt_nonneg n).
  assert (n / x < Z.sqrt n + 1).
  { apply Z.div_lt_upper_bound; [lia|]. nia. }
  pose proof (Z.mul_div_le (x + n / x) 2 ltac:(lia)). lia.
Qed.

End Newton.

(** With [x - sqrt n < 2 ^ f], [f + 1] iterations are enough. *)
Lemma raiz_bucle_spec f :
  forall fuel n x, (f < fuel)%nat -> 0 < n -> Z.sqrt n <= x ->
    x - Z.sqrt n < 2 ^ Z.of_nat f ->
    raiz_bucle fuel n x = Ok (Z.sqrt n).
Proof.
  induction f as [|f IH]; intros fuel n x Hf Hn Hx Hd;
    (destruct fuel as [|fuel]; [lia|]); cbn [raiz_bucle];
    assert (0 < Z.sqrt n) by (apply Z.sqrt_pos; lia);
    (destruct (Z.eqb_spec x 0); [lia|]);
    pose proof (paso_newton_lower n ltac:(lia) x ltac:(lia)) as Hlo.
  - simpl in Hd. assert (x = Z.sqrt n) by lia. subst x.
    destruct (Z.geb_spec (paso_newton n (Z.sqrt n)) (Z.sqrt n)); [reflexivity|lia].
  - destruct (Z.geb_spec (paso_newton n x) x) as [Hge|Hlt].
    + destruct (Z.eq_dec x (Z.sqrt n)) as [->|Hne]; [reflexivity|].
      pose proof (paso_newton_upper n ltac:(lia) x ltac:(lia)). lia.
    + destruct (Z.eq_dec x (Z.sqrt n)) as [->|Hne]; [lia|].
      pose proof (paso_newton_upper n ltac:(lia) x ltac:(lia)).
      apply IH; [lia|lia|lia|].
      rewrite Nat2Z.inj_succ, Z.pow_succ_r in Hd by lia. lia.
Qed.

Lemma bit_length_pos n : 0 < n -> bit_length n = Z.log2 n + 1.
Proof.
  intros Hn. unfold bit_length. destruct (Z.eqb_spec n 0); [lia|].
  rewrite Z.abs_eq by lia. reflexivity.
Qed.

Lemma raiz_inicio_upper n : 0 < n -> n < raiz_inicio n * raiz_inicio n.
Proof.
  intros Hn. unfold raiz_inicio. rewrite bit_length_pos by assumption.
  pose proof (Z.log2_nonneg n) as Hl.
  pose proof (Z.log2_spec n Hn) as [_ Hhi].
  set (l := Z.log2 n) in *.
  assert (0 <= (l + 1) / 2) by (apply Z.div_pos; lia).
  rewrite <- Z.pow_add_r by lia.
  eapply Z.lt_le_trans; [exact Hhi|].
  apply Z.pow_le_mono_r; [lia|].
  pose proof (Z.div_mod (l + 1) 2 ltac:(lia)).
  pose proof (Z.mod_pos_bound (l + 1) 2 ltac:(lia)). lia.
Qed.

Lemma raiz_inicio_pos n : 0 < raiz_inicio n.
Proof. unfold raiz_inicio. apply Z.pow_pos_nonneg; [lia|].
  unfold bit_length. destruct (n =? 0); simpl; [lia|].
  pose proof (Z.log2_nonneg (Z.abs n)).
  assert (0 <= (Z.log2 (Z.abs n) + 1) / 2) by (apply Z.div_pos; lia). lia.
Qed.

Lemma raiz_entera_con_spec fuel n :
  0 <= n -> (raiz_fuel n <= fuel)%nat -> raiz_entera_con fuel n = Ok (Z.sqrt n).
Proof.
  intros Hn Hf. unfold raiz_entera_con.
  destruct (Z.ltb_spec n 0); [lia|].
  destruct (Z.eqb_spec n 0) as [->|Hnz]; [reflexivity|].
  pose proof (raiz_inicio_upper n ltac:(lia)) as Hup.
  pose proof (raiz_inicio_pos n) as Hpos.
  pose proof (Z.sqrt_spec n Hn) as [Hlo _].
  pose proof (Z.sqrt_nonneg n).
  assert (Hb : 0 <= bit_length n / 2).
  { rewrite bit_length_pos by lia. pose proof (Z.log2_nonneg n). apply Z.div_pos; lia. }
  apply (raiz_bucle_spec (Z.to_nat (bit_length n / 2 + 1))).
  - unfold raiz_fuel in Hf. lia.
  - lia.
  - nia.
  - rewrite Z2Nat.id by lia. fold (raiz_inicio n).
    assert (0 < Z.sqrt n) by (apply Z.sqrt_pos; lia). lia.
Qed.

Lemma raiz_entera_spec n : 0 <= n -> raiz_entera n = Ok (Z.sqrt n).
Proof. intros Hn. apply raiz_entera_con_spec; [assumption|lia]. Qed.

(** ** Miller-Rabin on primes *)

(** For [d <> 0] the loop strips the factors 2 of [d] and counts
    them. *)
Lemma descomponer_bucle_spec fuel :
  forall d s, d <> 0 -> Z.abs d < 2 ^ Z.of_nat fuel ->
    exists k d', 0 <= k /\ descomponer_bucle fuel d s = Ok (s + k, d') /\
                 d = d' * 2 ^ k /\ d' mod 2 = 1.
Proof.
  induction fuel as [|fuel IH]; intros d s Hd Hb.
  - simpl in Hb. lia.
  - cbn [descomponer_bucle].
    pose proof (Z.div_mod d 2 ltac:(lia)) as Hdm.
    pose proof (Z.mod_pos_bound d 2 ltac:(lia)) as Hm2.
    destruct (Z.eqb_spec (d mod 2) 0) as [He|Ho].
    + rewrite Nat2Z.inj_succ, Z.pow_succ_r in Hb by lia.
      destruct (IH (d / 2) (s + 1)) as (k & d' & Hk & Hrun & Hfac & Hodd); [lia|lia|].
      exists (k + 1), d'. repeat split; [lia| |  |assumption].
      * rewrite Hrun. do 2 f_equal. lia.
      * rewrite Z.pow_add_r, Z.pow_1_r by lia. lia.
    + exists 0, d. repeat split; [lia| |simpl; lia|lia].
      do 2 f_equal. lia.
Qed.

Lemma bit_length_abs_bound d : d <> 0 -> Z.abs d < 2 ^ Z.of_nat (Z.to_nat (bit_length d)).
Proof.
  intros Hd. unfold bit_length. destruct (Z.eqb_spec d 0); [lia|].
  pose proof (Z.log2_nonneg (Z.abs d)).
  rewrite Z2Nat.id by lia.
  pose proof (Z.log2_spec (Z.abs d) ltac:(lia)).
  replace (Z.log2 (Z.abs d) + 1) with (Z.succ (Z.log2 (Z.abs d))) by lia. lia.
Qed.

Lemma descomponer_potencia_dos_spec n :
  n <> 1 ->
  exists s d, descomponer_potencia_dos n = Ok (s, d) /\ 0 <= s /\
              n - 1 = d * 2 ^ s /\ d mod 2 = 1.
Proof.
  intros Hn. unfold descomponer_potencia_dos.
  destruct (descomponer_bucle_spec (Z.to_nat (bit_length (n - 1))) (n - 1) 0)
    as (k & d & Hk & Hrun & Hfac & Hodd); [lia|apply bit_length_abs_bound; lia|].
  exists k, d. rewrite Hrun. auto.
Qed.

(** For [n = 1] the loop divides 0 by 2 for ever: no fuel is enough. *)
Lemma descomponer_bucle_cero fuel s : descomponer_bucle fuel 0 s = OutOfFuel.
Proof. revert s. induction fuel as [|fuel IH]; intros s; [reflexivity|]. simpl. apply IH. Qed.

Section ModuloPrimo.

Variable n : Z.
Hypothesis Hp : Z.prime n.

(** The square roots of one modulo a prime are 1 and [n - 1]. *)
Lemma raiz_de_uno x :
  0 <= x < n -> (x * x) mod n = 1 -> x = 1 \/ x = n - 1.
Proof.
  intros Hx Hsq.
  pose proof (Z.prime_ge_2 _ Hp).
  assert (Hdiv : (n | (x - 1) * (x + 1))).
  { apply Z.mod_divide; [lia|].
    replace ((x - 1) * (x + 1)) with (x * x - 1) by ring.
    rewrite Zminus_mod, Hsq, Z.mod_1_l by lia. reflexivity. }
  apply Z.divide_prime_mul in Hdiv; [|assumption].
  destruct Hdiv as [[k Hk]|[k Hk]]; [left|right].
  - assert (k = 0) by nia. lia.
  - assert (k = 1) by nia. lia.
Qed.

(** If [k + 1] squarings of [x <> 1] reach 1, then [n - 1] is met on
    the way: at [x] itself or in the loop. *)
Lemma ronda_bucle_primo :
  forall k x, 0 <= x < n -> x <> 1 ->
    x ^ (2 ^ Z.of_nat (S k)) mod n = 1 ->
    x = n - 1 \/ ronda_bucle k n x = true.
Proof.
  pose proof (Z.prime_ge_2 _ Hp).
  induction k as [|k IH]; intros x Hx Hx1 Hpow.
  - change (2 ^ Z.of_nat 1) with 2 in Hpow. rewrite Z.pow_2_r in Hpow.
    destruct (raiz_de_uno x Hx Hpow); [lia|auto].
  - cbn [ronda_bucle].
    destruct (Z.eqb_spec ((x * x) mod n) (n - 1)) as [|Hne]; [auto|].
    rewrite Nat2Z.inj_succ, Z.pow_succ_r, Z.pow_mul_r, Z.pow_2_r in Hpow
      by (try apply Z.pow_nonneg; lia).
    rewrite <- Z.mod_pow_l in Hpow.
    destruct (Z.eq_dec ((x * x) mod n) 1) as [H1|H1].
    + destruct (raiz_de_uno x Hx H1); [lia|auto].
    + destruct (IH ((x * x) mod n)) as [|Hr]; auto; try lia.
      apply Z.mod_pos_bound; lia.
Qed.

Lemma primo_impar : 2 < n -> n mod 2 = 1.
Proof.
  intros Hn. destruct Hp as [_ Hdiv].
  pose proof (Z.mod_pos_bound n 2 ltac:(lia)).
  destruct (Z.eq_dec (n mod 2) 0) as [H0|]; [|lia].
  exfalso. apply (Hdiv 2); [lia|]. apply Z.mod_divide; lia.
Qed.

(** A base that is not a multiple of the prime passes the round. *)
Lemma ronda_miller_rabin_primo a :
  2 < n -> a mod n <> 0 -> ronda_miller_rabin n a = Ok true.
Proof.
  intros Hn Ha. unfold ronda_miller_rabin.
  destruct (descomponer_potencia_dos_spec n ltac:(lia)) as (s & d & Hrun & Hs & Hfac & Hodd).
  rewrite Hrun. cbn [rbind].
  assert (Hd : 0 < d).
  { assert (0 < 2 ^ s) by (apply Z.pow_pos_nonneg; lia). nia. }
  rewrite exponenciacion_modular_pos by lia. cbn [rbind].
  destruct (Z.eqb_spec (a ^ d mod n) 1) as [|H1]; [reflexivity|].
  destruct (Z.eqb_spec (a ^ d mod n) (n - 1)) as [|Hm1]; [reflexivity|].
  cbn [orb].
  assert (Hs1 : 1 <= s).
  { destruct (Z.eq_dec s 0) as [->|]; [|lia].
    exfalso. rewrite Z.pow_0_r, Z.mul_1_r in Hfac.
    pose proof (primo_impar Hn) as Hn2.
    replace n with (d + 1) in Hn2 by lia.
    rewrite Zplus_mod, Hodd in Hn2. discriminate Hn2. }
  destruct (ronda_bucle_primo (Z.to_nat (s - 1)) (a ^ d mod n)) as [|Hr].
  - apply Z.mod_pos_bound; lia.
  - assumption.
  - replace (Z.of_nat (S (Z.to_nat (s - 1)))) with s by lia.
    rewrite Z.mod_pow_l, <- Z.pow_mul_r by (try apply Z.pow_nonneg; lia).
    rewrite <- Hfac. apply Z.fermat_nz; assumption.
  - lia.
  - rewrite Hr. reflexivity.
Qed.

End ModuloPrimo.

(** ** The random monad, prime generation and the RSA round trip *)

Lemma bind_Ok {A B} (c : M A) (k : A -> M B) g a g' :
  c g = Ok (a, g') -> bind c k g = k a g'.
Proof. intros H. unfold bind. rewrite H. reflexivity. Qed.

Lemma bind_inv {A B} (c : M A) (k : A -> M B) g b g2 :
  bind c k g = Ok (b, g2) ->
  exists a g1, c g = Ok (a, g1) /\ k a g1 = Ok (b, g2).
Proof.
  unfold bind. destruct (c g) as [[a g1]| |]; cbn [rbind]; try discriminate.
  intros H. exists a, g1. auto.
Qed.

(** Inverts [H : bind c k g = Ok _] into the two runs it is made of. *)
Ltac inv_bind H a g Hc :=
  apply bind_inv in H; destruct H as (a & g & Hc & H).

Lemma randrange_spec lo hi g :
  lo < hi -> exists a, randrange lo hi g = Ok (a, fun i => g (S i)) /\ lo <= a < hi.
Proof.
  intros H. unfold randrange. destruct (Z.leb_spec hi lo); [lia|].
  exists (lo + g 0%nat mod (hi - lo)). split; [reflexivity|].
  pose proof (Z.mod_pos_bound (g 0%nat) (hi - lo) ltac:(lia)). lia.
Qed.

Lemma rondas_bucle_primo n : Z.prime n -> 4 < n ->
  forall k g, exists g', rondas_bucle k n g = Ok (true, g').
Proof.
  intros Hp Hn. induction k as [|k IH]; intros g.
  - exists g. reflexivity.
  - cbn [rondas_bucle].
    destruct (randrange_spec 2 (n - 1) g ltac:(lia)) as (a & Hr & Ha).
    rewrite (bind_Ok _ _ _ _ _ Hr).
    unfold lift at 1. unfold bind at 1.
    rewrite ronda_miller_rabin_primo; [|assumption|lia|].
    + cbn [rbind negb]. apply IH.
    + rewrite Z.mod_small; lia.
Qed.

Lemma es_primo_probable_primo n rondas g :
  Z.prime n -> exists g', es_primo_probable n rondas g = Ok (true, g').
Proof.
  intros Hp. pose proof (Z.prime_ge_2 _ Hp). unfold es_primo_probable.
  destruct (Z.ltb_spec n 2); [lia|].
  destruct (Z.eqb_spec n 2); [exists g; reflexivity|].
  destruct (Z.eqb_spec n 3); [exists g; reflexivity|]. cbn [orb].
  pose proof (primo_impar n Hp ltac:(lia)) as Hodd.
  destruct (Z.eqb_spec (n mod 2) 0); [lia|].
  assert (n <> 4) by (intros ->; discriminate Hodd).
  apply rondas_bucle_primo; [assumption|lia].
Qed.

Lemma es_primo_probable_ge2 n rondas g g' :
  es_primo_probable n rondas g = Ok (true, g') -> 2 <= n.
Proof.
  unfold es_primo_probable. destruct (Z.ltb_spec n 2); [|lia].
  unfold ret. intros Hf. discriminate Hf.
Qed.

Lemma generar_impar_aleatorio_impar bits g n g' :
  generar_impar_aleatorio bits g = Ok (n, g') -> Z.odd n = true.
Proof.
  unfold generar_impar_aleatorio. intros H. inv_bind H r g1 Hr.
  destruct (bits - 1 <? 0); [discriminate H|].
  unfold ret in H. injection H as <- _.
  rewrite <- Z.bit0_odd, Z.lor_spec. apply orb_true_r.
Qed.

Lemma generar_primo_spec fuel :
  forall bits g p g', generar_primo fuel bits g = Ok (p, g') -> 3 <= p.
Proof.
  induction fuel as [|fuel IH]; intros bits g p g' H; [discriminate H|].
  cbn [generar_primo] in H.
  inv_bind H n g1 Hn. inv_bind H b g2 Hb.
  destruct b.
  - unfold ret in H. injection H as <- <-.
    apply es_primo_probable_ge2 in Hb.
    apply generar_impar_aleatorio_impar in Hn.
    destruct (Z.eq_dec n 2) as [->|]; [discriminate Hn|lia].
  - eapply IH; eassumption.
Qed.

(** *** RSA round trip on genuine primes *)

(** Fermat's little theorem, for an exponent that is 1 modulo [p - 1]. *)
Lemma potencia_mod_primo p m k :
  Z.prime p -> 0 <= k -> m ^ (1 + k * (p - 1)) mod p = m mod p.
Proof.
  intros Hp Hk. pose proof (Z.prime_ge_2 _ Hp).
  rewrite Z.pow_add_r, Z.pow_1_r by nia.
  destruct (Z.eq_dec (m mod p) 0) as [H0|Hnz].
  - rewrite <- Z.mul_mod_idemp_l, H0 by lia. rewrite Z.mul_0_l. apply Z.mod_0_l. lia.
  - rewrite (Z.mul_comm k), Z.pow_mul_r by lia.
    rewrite <- Z.mul_mod_idemp_r by lia.
    rewrite <- (Z.mod_pow_l (m ^ (p - 1))).
    rewrite (Z.fermat_nz p m Hp Hnz).
    rewrite Z.pow_1_l by lia. rewrite Z.mod_1_l by lia.
    rewrite Z.mul_1_r. reflexivity.
Qed.

Lemma rsa_exponente p q e d m :
  Z.prime p -> Z.prime q -> p <> q -> 0 <= e -> 0 <= d ->
  (e * d) mod ((p - 1) * (q - 1)) = 1 ->
  m ^ (e * d) mod (p * q) = m mod (p * q).
Proof.
  intros Hp Hq Hpq He Hd Hed.
  pose proof (Z.prime_ge_2 _ Hp). pose proof (Z.prime_ge_2 _ Hq).
  set (phi := (p - 1) * (q - 1)) in *.
  assert (Hphi : 0 < phi) by (unfold phi; nia).
  pose proof (Z.div_mod (e * d) phi ltac:(lia)) as Hdm. rewrite Hed in Hdm.
  assert (Hk : 0 <= e * d / phi) by (apply Z.div_pos; nia).
  set (k := e * d / phi) in *.
  assert (Hmp : m ^ (e * d) mod p = m mod p).
  { replace (e * d) with (1 + (k * (q - 1)) * (p - 1)) by (unfold phi in Hdm; lia).
    apply potencia_mod_primo; [assumption|nia]. }
  assert (Hmq : m ^ (e * d) mod q = m mod q).
  { replace (e * d) with (1 + (k * (p - 1)) * (q - 1)) by (unfold phi in Hdm; lia).
    apply potencia_mod_primo; [assumption|nia]. }
  assert (Dp : (p | m ^ (e * d) - m)).
  { apply Z.mod_divide; [lia|]. rewrite Zminus_mod, Hmp, Z.sub_diag. apply Z.mod_0_l. lia. }
  assert (Dq : (q | m ^ (e * d) - m)).
  { apply Z.mod_divide; [lia|]. rewrite Zminus_mod, Hmq, Z.sub_diag. apply Z.mod_0_l. lia. }
  assert (Hcop : Z.gcd q p = 1).
  { apply Z.coprime_prime_l; [assumption|]. intros Hd'.
    apply Z.divide_prime_prime in Hd'; auto. }
  destruct Dp as [c Hc].
  rewrite Hc in Dq. rewrite Z.mul_comm in Dq. apply Z.gauss in Dq; [|assumption].
  destruct Dq as [c' Hc'].
  assert (Hfin : m ^ (e * d) = m + c' * (p * q)) by (subst c; lia).
  rewrite Hfin. apply Z.mod_add. nia.
Qed.

Lemma rsa_ida_y_vuelta p q e d m :
  Z.prime p -> Z.prime q -> p <> q -> 0 < e -> 0 <= d ->
  (e * d) mod ((p - 1) * (q - 1)) = 1 ->
  0 <= m < p * q ->
  (let? c := cifrar_rsa m (p * q, e) in descifrar_rsa c (p * q, d)) = Ok m.
Proof.
  intros Hp Hq Hpq He Hd Hed Hm.
  pose proof (Z.prime_ge_2 _ Hp). pose proof (Z.prime_ge_2 _ Hq).
  assert (Hn : 1 < p * q) by nia.
  unfold cifrar_rsa, descifrar_rsa.
  rewrite exponenciacion_modular_spec by lia. cbn [rbind].
  rewrite exponenciacion_modular_spec by lia.
  rewrite Z.mod_pow_l, <- Z.pow_mul_r by lia.
  rewrite rsa_exponente by (auto; lia).
  rewrite Z.mod_small by lia. reflexivity.
Qed.

(** ** Fermat attack *)

Lemma cuadrado_perfecto_sqrt z :
  0 <= z -> (Z.sqrt z * Z.sqrt z = z <-> cuadrado_perfecto z).
Proof.
  intros Hz. split.
  - intros H. exists (Z.sqrt z). exact H.
  - intros [y Hy]. subst z.
    assert (Hs : Z.sqrt (y * y) = Z.abs y).
    { rewrite <- (Z.abs_square y). apply Z.sqrt_square, Z.abs_nonneg. }
    rewrite Hs. apply Z.abs_square.
Qed.

Lemma techo_raiz n :
  0 <= n ->
  (if Z.sqrt n * Z.sqrt n <? n then Z.sqrt n + 1 else Z.sqrt n) = Z.sqrt_up n.
Proof.
  intros Hn. pose proof (Z.sqrt_spec n Hn) as [Hlo Hhi].
  pose proof (Z.sqrt_nonneg n).
  destruct (Z.eq_dec n 0) as [->|Hnz]; [reflexivity|].
  assert (0 < Z.sqrt n) by (apply Z.sqrt_pos; lia).
  symmetry. destruct (Z.ltb_spec (Z.sqrt n * Z.sqrt n) n).
  - apply Z.sqrt_up_unique; [lia|]. replace (Z.pred (Z.sqrt n + 1)) with (Z.sqrt n) by lia. lia.
  - apply Z.sqrt_up_unique; [lia|]. nia.
Qed.

Lemma sqrt_up_cota n : 0 <= n -> 0 <= Z.sqrt_up n /\ n <= Z.sqrt_up n * Z.sqrt_up n.
Proof.
  intros Hn. split; [apply Z.sqrt_up_nonneg|].
  destruct (Z.eq_dec n 0) as [->|]; [reflexivity|].
  pose proof (Z.sqrt_up_spec n ltac:(lia)). lia.
Qed.

Lemma fermat_bucle_spec k :
  forall n x, 0 <= x -> n <= x * x ->
    exists r, fermat_bucle k n x = Ok r /\
      (r = None <->
         forall i, 0 <= i < Z.of_nat k ->
                   ~ cuadrado_perfecto ((x + i) * (x + i) - n)) /\
      (forall u v, r = Some (u, v) ->
         exists i y, 0 <= i < Z.of_nat k /\ 0 <= y /\
                     (x + i) * (x + i) - n = y * y /\
                     u = x + i - y /\ v = x + i + y).
Proof.
  induction k as [|k IH]; intros n x Hx Hn.
  - exists None. split; [reflexivity|]. split.
    + split; [intros _ i Hi; simpl in Hi; lia|reflexivity].
    + intros u v Hr. discriminate Hr.
  - cbn [fermat_bucle]. cbv zeta.
    rewrite raiz_entera_spec by lia. cbn [rbind].
    pose proof (Z.sqrt_nonneg (x * x - n)) as Hy.
    pose proof (cuadrado_perfecto_sqrt (x * x - n) ltac:(lia)) as Hcp.
    destruct (Z.eqb_spec (Z.sqrt (x * x - n) * Z.sqrt (x * x - n)) (x * x - n)) as [He|Hne].
    + eexists. split; [reflexivity|]. split.
      * split; [discriminate|]. intros Hall. exfalso.
        apply (Hall 0); [lia|]. rewrite Z.add_0_r. apply Hcp, He.
      * intros u v Hr. injection Hr as <- <-.
        exists 0, (Z.sqrt (x * x - n)). rewrite !Z.add_0_r. repeat split; auto; lia.
    + destruct (IH n (x + 1) ltac:(lia) ltac:(nia)) as (r & Hrun & Hnone & Hsome).
      exists r. split; [exact Hrun|]. split.
      * rewrite Hnone. split; intros Hall i Hi.
        -- destruct (Z.eq_dec i 0) as [->|].
           ++ rewrite Z.add_0_r. intros Hc. apply Hne, Hcp, Hc.
           ++ replace (x + i) with (x + 1 + (i - 1)) by lia. apply Hall. lia.
        -- replace (x + 1 + i) with (x + (i + 1)) by lia. apply Hall. lia.
      * intros u v Hr. destruct (Hsome u v Hr) as (i & y & Hi & Hy0 & Hsq & Hu & Hv).
        exists (i + 1), y. replace (x + (i + 1)) with (x + 1 + i) by lia.
        repeat split; auto; lia.
Qed.

Lemma ataque_de_fermat_spec n K :
  0 <= n ->
  exists r, ataque_de_fermat n K = Ok r /\
    (r = None <->
       forall i, 0 <= i < Z.of_nat (Z.to_nat K) ->
         ~ cuadrado_perfecto ((Z.sqrt_up n + i) * (Z.sqrt_up n + i) - n)) /\
    (forall u v, r = Some (u, v) ->
       exists i y, 0 <= i < Z.of_nat (Z.to_nat K) /\ 0 <= y /\
         (Z.sqrt_up n + i) * (Z.sqrt_up n + i) - n = y * y /\
         u = Z.sqrt_up n + i - y /\ v = Z.sqrt_up n + i + y).
Proof.
  intros Hn. unfold ataque_de_fermat.
  rewrite raiz_entera_spec by assumption. cbn [rbind].
  rewrite techo_raiz by assumption.
  destruct (sqrt_up_cota n Hn).
  apply fermat_bucle_spec; assumption.
Qed.

(** ** Small primes *)

Lemma sin_divisor_spec k p :
  sin_divisor k p = true ->
  forall j, (j < k)%nat -> p mod (Z.of_nat j + 2) <> 0.
Proof.
  induction k as [|k IH]; intros H j Hj; [lia|].
  cbn [sin_divisor] in H. apply andb_true_iff in H. destruct H as [H1 H2].
  destruct (Nat.eq_dec j k) as [->|].
  - destruct (Z.eqb_spec (p mod (Z.of_nat k + 2)) 0); [discriminate H1|assumption].
  - apply IH; [assumption|lia].
Qed.

Lemma primo_por_division p :
  1 < p -> sin_divisor (Z.to_nat (p - 2)) p = true -> Z.prime p.
Proof.
  intros Hp H. split; [assumption|]. intros n Hn Hd.
  apply Z.mod0_divide in Hd.
  apply (sin_divisor_spec _ _ H (Z.to_nat (n - 2))); [lia|].
  rewrite Z2Nat.id by lia. replace (n - 2 + 2) with n by lia. exact Hd.
Qed.

Lemma primo_7 : Z.prime 7.
Proof. apply primo_por_division; [lia|reflexivity]. Qed.

Lemma primo_17 : Z.prime 17.
Proof. apply primo_por_division; [lia|reflexivity]. Qed.

Lemma primo_19 : Z.prime 19.
Proof. apply primo_por_division; [lia|reflexivity]. Qed.

Lemma compuesto_25 : ~ Z.prime 25.
Proof. change 25 with (5 * 5). apply Z.not_prime_square. Qed.

(** * The claims *)

(** ** Key generation *)

(** What [generar_claves_rsa] does once both primes are drawn. *)
Lemma generar_claves_rsa_pasos fuel bits g p g1 q g2 :
  generar_primo fuel bits g = Ok (p, g1) ->
  generar_primo fuel bits g1 = Ok (q, g2) ->
  generar_claves_rsa fuel bits g =
    (let? d := inverso_modular marcos_libres 65537 ((p - 1) * (q - 1)) in
     Ok ((p * q, 65537, (p * q, d)), g2)).
Proof.
  intros Hp Hq. unfold generar_claves_rsa.
  rewrite (bind_Ok _ _ _ _ _ Hp), (bind_Ok _ _ _ _ _ Hq).
  unfold bind, lift, ret.
  destruct (inverso_modular marcos_libres 65537 ((p - 1) * (q - 1))); reflexivity.
Qed.

(** C1, as the code has it: the round trip
    [descifrar_rsa(cifrar_rsa(m, publica), privada) = m] holds for every
    key pair returned by [generar_claves_rsa] whose two generated
    numbers [p] and [q] are prime and different, and every [m] with
    [0 <= m < n]. *)
Theorem generar_claves_rsa_ida_y_vuelta fuel bits g p g1 q g2 pub priv g3 m :
  generar_primo fuel bits g = Ok (p, g1) ->
  generar_primo fuel bits g1 = Ok (q, g2) ->
  Z.prime p -> Z.prime q -> p <> q ->
  generar_claves_rsa fuel bits g = Ok ((pub, priv), g3) ->
  0 <= m < fst pub ->
  fst pub = p * q /\
  Z.gcd 65537 ((p - 1) * (q - 1)) = 1 /\
  (let? c := cifrar_rsa m pub in descifrar_rsa c priv) = Ok m.
Proof.
  intros Hgp Hgq Hp Hq Hpq Hrun Hm.
  pose proof (Z.prime_ge_2 _ Hp). pose proof (Z.prime_ge_2 _ Hq).
  assert (Hphi : 2 <= (p - 1) * (q - 1)) by nia.
  rewrite (generar_claves_rsa_pasos _ _ _ _ _ _ _ Hgp Hgq) in Hrun.
  destruct (inverso_modular_65537 ((p - 1) * (q - 1)) ltac:(lia))
    as [Hok Hbad].
  destruct (Z.eq_dec (Z.gcd 65537 ((p - 1) * (q - 1))) 1) as [Hg|Hg].
  - destruct (Hok Hg) as (d & Hd & Hrange & Hinv).
    rewrite Hd in Hrun. cbn [rbind] in Hrun.
    injection Hrun as <- <- _. cbn [fst] in Hm |- *.
    split; [reflexivity|]. split; [assumption|].
    rewrite Z.mod_1_l in Hinv by lia.
    apply rsa_ida_y_vuelta; auto; lia.
  - rewrite (Hbad Hg) in Hrun. discriminate Hrun.
Qed.

Lemma generar_claves_rsa_ida_y_vuelta_witness :
  fst (323, 65537) = 17 * 19 /\
  Z.gcd 65537 ((17 - 1) * (19 - 1)) = 1 /\
  (let? c := cifrar_rsa 42 (323, 65537) in descifrar_rsa c (323, 161)) = Ok 42.
Proof.
  apply (generar_claves_rsa_ida_y_vuelta 1 5 rng_17_19 17 (avanzar 41 rng_17_19)
           19 (avanzar 82 rng_17_19) (323, 65537) (323, 161)
           (avanzar 82 rng_17_19) 42).
  - reflexivity.
  - reflexivity.
  - exact primo_17.
  - exact primo_19.
  - lia.
  - reflexivity.
  - simpl. lia.
Defined.

(** C1, as the spec states it, fails: the source that proposes 25 and
    then draws the strong liar 7 as every witness makes
    [generar_primo] return the composite 25; with the second number 17
    the numbers differ and 65537 is invertible modulo [24 * 16], the
    key pair is returned, and the message 5 comes back as 175. *)
Lemma generar_claves_rsa_ida_y_vuelta_counterexample :
  generar_primo 1 5 rng_25_17 = Ok (25, avanzar 41 rng_25_17) /\
  generar_primo 1 5 (avanzar 41 rng_25_17) = Ok (17, avanzar 82 rng_25_17) /\
  25 <> 17 /\
  Z.gcd 65537 ((25 - 1) * (17 - 1)) = 1 /\
  generar_claves_rsa 1 5 rng_25_17 =
    Ok ((25 * 17, 65537, (25 * 17, 257)), avanzar 82 rng_25_17) /\
  0 <= 5 < 25 * 17 /\
  (let? c := cifrar_rsa 5 (25 * 17, 65537) in descifrar_rsa c (25 * 17, 257))
    = Ok 175 /\
  Ok 175 <> Ok 5 :> result Z.
Proof.
  repeat split; try reflexivity; try discriminate; try lia.
Qed.

(** C4: when [generar_claves_rsa] has drawn [p] and [q], it returns
    [((n, 65537), (n, d))] with [n = p * q], [0 <= d < (p-1)(q-1)] and
    [65537 * d = 1] modulo [(p-1)(q-1)] if 65537 is coprime to
    [(p-1)(q-1)], and raises the no-inverse exception otherwise. *)
Theorem generar_claves_rsa_invariante fuel bits g p g1 q g2 :
  generar_primo fuel bits g = Ok (p, g1) ->
  generar_primo fuel bits g1 = Ok (q, g2) ->
  (Z.gcd 65537 ((p - 1) * (q - 1)) = 1 ->
     exists d,
       generar_claves_rsa fuel bits g = Ok ((p * q, 65537, (p * q, d)), g2) /\
       0 <= d < (p - 1) * (q - 1) /\
       (65537 * d) mod ((p - 1) * (q - 1)) = 1) /\
  (Z.gcd 65537 ((p - 1) * (q - 1)) <> 1 ->
     generar_claves_rsa fuel bits g = Raise NoExisteInverso).
Proof.
  intros Hgp Hgq.
  pose proof (generar_primo_spec _ _ _ _ _ Hgp).
  pose proof (generar_primo_spec _ _ _ _ _ Hgq).
  assert (Hphi : 4 <= (p - 1) * (q - 1)) by nia.
  rewrite (generar_claves_rsa_pasos _ _ _ _ _ _ _ Hgp Hgq).
  destruct (inverso_modular_65537 ((p - 1) * (q - 1)) ltac:(lia))
    as [Hok Hbad].
  split; intros Hg.
  - destruct (Hok Hg) as (d & Hd & Hrange & Hinv).
    exists d. rewrite Hd. cbn [rbind].
    rewrite Z.mod_1_l in Hinv by lia. auto.
  - rewrite (Hbad Hg). reflexivity.
Qed.

Lemma generar_claves_rsa_invariante_witness :
  exists d,
    generar_claves_rsa 1 5 rng_17_19 =
      Ok ((17 * 19, 65537, (17 * 19, d)), avanzar 82 rng_17_19) /\
    0 <= d < (17 - 1) * (19 - 1) /\
    (65537 * d) mod ((17 - 1) * (19 - 1)) = 1.
Proof.
  apply (generar_claves_rsa_invariante 1 5 rng_17_19 17 (avanzar 41 rng_17_19)
           19 (avanzar 82 rng_17_19)).
  - reflexivity.
  - reflexivity.
  - reflexivity.
Defined.

(** The other branch on a concrete run: both draws give the prime
    [917519 = 14 * 65537 + 1], and key generation raises. *)
Example generar_claves_rsa_sin_inverso :
  generar_claves_rsa 1 20 rng_917519 = Raise NoExisteInverso.
Proof. vm_compute. reflexivity. Qed.

(** ** Modular exponentiation *)

(** C2 at the input where the code leaves the claim: with exponent 0
    and modulus 1 the loop is never entered and the initial
    [resultado = 1] is returned, whereas [a^0 mod 1] is 0.  For every
    other input of the claim the code agrees with it, see
    [exponenciacion_modular_pos] and [exponenciacion_modular_spec]. *)
Theorem exponenciacion_modular_modulo_uno a :
  exponenciacion_modular a 0 1 = Ok 1 /\ a ^ 0 mod 1 = 0.
Proof.
  split.
  - apply exponenciacion_modular_le0; lia.
  - apply Z.mod_1_r.
Qed.

(** C10: for a modulus [n >= 2] the result of
    [exponenciacion_modular] lies in [[0, n)], whatever the base; so do
    the results of [cifrar_rsa] and [descifrar_rsa] for any message,
    negative or above [n] included. *)
Theorem exponenciacion_modular_rango a b n :
  2 <= n -> 0 <= b ->
  (exists r, exponenciacion_modular a b n = Ok r /\ 0 <= r < n) /\
  (exists c, cifrar_rsa a (n, b) = Ok c /\ 0 <= c < n) /\
  (exists m, descifrar_rsa a (n, b) = Ok m /\ 0 <= m < n).
Proof.
  intros Hn Hb.
  assert (H : exists r, exponenciacion_modular a b n = Ok r /\ 0 <= r < n).
  { exists (a ^ b mod n). split.
    - apply exponenciacion_modular_spec; lia.
    - apply Z.mod_pos_bound. lia. }
  repeat split; exact H.
Qed.

Lemma exponenciacion_modular_rango_witness :
  (exists r, exponenciacion_modular (-3) 5 7 = Ok r /\ 0 <= r < 7) /\
  (exists c, cifrar_rsa (-3) (7, 5) = Ok c /\ 0 <= c < 7) /\
  (exists m, descifrar_rsa (-3) (7, 5) = Ok m /\ 0 <= m < 7).
Proof. apply (exponenciacion_modular_rango (-3) 5 7); lia. Defined.

(** ** Modular inverse *)




(** One frame more is enough for that input. *)
Example mcd_extendido_fibonacci :
  mcd_extendido 999 (fibonacci 1000 0 1) (fibonacci 1001 0 1) = Raise RecursionError /\
  exists x y, mcd_extendido 1000 (fibonacci 1000 0 1) (fibonacci 1001 0 1) = Ok (1, x, y).
Proof.
  split; [vm_compute; reflexivity|].
  eexists _, _. vm_compute. reflexivity.
Qed.

(** ** Integer square root *)

(** C8: for [n >= 0], [raiz_entera(n)] returns the floor of the square
    root, [r * r <= n < (r + 1) * (r + 1)]; for [n < 0] it raises
    [ValueError] before the loop is entered, whatever the fuel. *)
Theorem raiz_entera_correcta n :
  (0 <= n ->
     exists r, raiz_entera n = Ok r /\ r = Z.sqrt n /\
               r * r <= n < (r + 1) * (r + 1)) /\
  (n < 0 ->
     raiz_entera n = Raise ValueError /\
     forall fuel, raiz_entera_con fuel n = Raise ValueError).
Proof.
  split; intros Hn.
  - exists (Z.sqrt n). split; [apply raiz_entera_spec; assumption|].
    split; [reflexivity|].
    pose proof (Z.sqrt_spec n Hn) as [Hlo Hhi]. lia.
  - assert (H : forall fuel, raiz_entera_con fuel n = Raise ValueError).
    { intros fuel. unfold raiz_entera_con.
      destruct (Z.ltb_spec n 0); [reflexivity|lia]. }
    split; [apply H|exact H].
Qed.

Lemma raiz_entera_correcta_witness :
  (exists r, raiz_entera 99 = Ok r /\ r = Z.sqrt 99 /\
             r * r <= 99 < (r + 1) * (r + 1)) /\
  raiz_entera (-4) = Raise ValueError /\
  raiz_entera_con 0 (-4) = Raise ValueError.
Proof.
  split.
  - apply (proj1 (raiz_entera_correcta 99)). lia.
  - destruct (proj2 (raiz_entera_correcta (-4))) as [H1 H2]; [lia|].
    split; [exact H1|apply H2].
Defined.

(** C9: for [n >= 0] the Newton loop of [raiz_entera] terminates: the
    starting value is above the square root, every iterate is at least
    the floor of the root, an iterate taken above the root is strictly
    smaller than its predecessor, and the loop returns within
    [raiz_fuel n] iterations, a number linear in the bit length of [n];
    more fuel does not change the result. *)
Theorem raiz_entera_termina n :
  0 <= n ->
  (0 < n -> n < raiz_inicio n * raiz_inicio n) /\
  (forall x, 0 < x -> Z.sqrt n <= paso_newton n x) /\
  (forall x, Z.sqrt n < x -> paso_newton n x < x) /\
  (forall fuel, (raiz_fuel n <= fuel)%nat ->
     raiz_entera_con fuel n = Ok (Z.sqrt n)) /\
  Z.of_nat (raiz_fuel n) <= bit_length n + 2.
Proof.
  intros Hn. repeat split.
  - apply raiz_inicio_upper.
  - intros x Hx. apply paso_newton_lower; assumption.
  - intros x Hx. pose proof (paso_newton_upper n Hn x Hx). lia.
  - intros fuel Hf. apply raiz_entera_con_spec; assumption.
  - unfold raiz_fuel.
    assert (Hb : 0 <= bit_length n).
    { unfold bit_length. destruct (n =? 0); [lia|].
      pose proof (Z.log2_nonneg (Z.abs n)). lia. }
    pose proof (Z.div_pos (bit_length n) 2 Hb ltac:(lia)).
    pose proof (Z.mul_div_le (bit_length n) 2 ltac:(lia)). lia.
Qed.

Lemma raiz_entera_termina_witness :
  99 < raiz_inicio 99 * raiz_inicio 99 /\
  Z.sqrt 99 <= paso_newton 99 16 /\
  paso_newton 99 16 < 16 /\
  raiz_entera_con 5 99 = Ok (Z.sqrt 99) /\
  raiz_entera_con 50 99 = Ok (Z.sqrt 99) /\
  Z.of_nat (raiz_fuel 99) <= bit_length 99 + 2.
Proof.
  destruct (raiz_entera_termina 99) as (H1 & H2 & H3 & H4 & H5); [lia|].
  split; [apply H1; lia|].
  split; [apply H2; lia|].
  split; [apply H3; vm_compute; reflexivity|].
  split; [apply H4; vm_compute; lia|].
  split; [apply H4; vm_compute; lia|exact H5].
Defined.

(** ** Miller-Rabin *)

(** C3: for a prime [n > 3] and a witness [a] with [2 <= a <= n - 2],
    [ronda_miller_rabin(n, a)] returns true; so for a prime [n],
    whatever the number of rounds and whatever the random source
    draws, [es_primo_probable] returns true and never false. *)
Theorem miller_rabin_no_rechaza_primos n :
  Z.prime n ->
  (3 < n -> forall a, 2 <= a <= n - 2 -> ronda_miller_rabin n a = Ok true) /\
  (forall rondas g, exists g', es_primo_probable n rondas g = Ok (true, g')) /\
  (forall rondas g g', es_primo_probable n rondas g <> Ok (false, g')).
Proof.
  intros Hp. split; [|split].
  - intros Hn a Ha. apply ronda_miller_rabin_primo; [assumption|lia|].
    rewrite Z.mod_small; lia.
  - intros rondas g. apply es_primo_probable_primo. assumption.
  - intros rondas g g' Hf.
    destruct (es_primo_probable_primo n rondas g Hp) as [g1 Ht].
    rewrite Ht in Hf. discriminate Hf.
Qed.

Lemma miller_rabin_no_rechaza_primos_witness :
  ronda_miller_rabin 7 3 = Ok true /\
  (exists g', es_primo_probable 7 40 rng_17_19 = Ok (true, g')) /\
  es_primo_probable 7 40 rng_17_19 <> Ok (false, avanzar 40 rng_17_19).
Proof.
  destruct (miller_rabin_no_rechaza_primos 7 primo_7) as (Hronda & Hsi & Hno).
  split; [apply Hronda; lia|]. split; [apply Hsi|apply Hno].
Defined.

(** ** Fermat attack *)

(** C5: for [n >= 1] and [K >= 0], a pair [(u, v)] returned by
    [ataque_de_fermat(n, K)] satisfies [u * v = n] and [u <= v], with
    [u = x - y] and [v = x + y] for some [x] at or above the ceiling of
    the square root of [n], among the [K] candidates, such that
    [x * x - n] is the square [y * y]. *)
Theorem ataque_de_fermat_correcto n K u v :
  1 <= n -> 0 <= K ->
  ataque_de_fermat n K = Ok (Some (u, v)) ->
  u * v = n /\ u <= v /\
  exists x y, Z.sqrt_up n <= x < Z.sqrt_up n + K /\ 0 <= y /\
              x * x - n = y * y /\ cuadrado_perfecto (x * x - n) /\
              u = x - y /\ v = x + y.
Proof.
  intros Hn HK Hrun.
  destruct (ataque_de_fermat_spec n K ltac:(lia)) as (r & Hr & _ & Hsome).
  rewrite Hr in Hrun. injection Hrun as ->.
  destruct (Hsome u v eq_refl) as (i & y & Hi & Hy & Hsq & Hu & Hv).
  rewrite Z2Nat.id in Hi by assumption.
  split; [subst u v; nia|]. split; [lia|].
  exists (Z.sqrt_up n + i), y. repeat split; try lia.
  exists y. lia.
Qed.

Lemma ataque_de_fermat_correcto_witness :
  89 * 97 = 8633 /\ 89 <= 97 /\
  exists x y, Z.sqrt_up 8633 <= x < Z.sqrt_up 8633 + 100 /\ 0 <= y /\
              x * x - 8633 = y * y /\ cuadrado_perfecto (x * x - 8633) /\
              89 = x - y /\ 97 = x + y.
Proof.
  apply (ataque_de_fermat_correcto 8633 100 89 97); [lia|lia|reflexivity].
Defined.

(** C6: for [n >= 0] and [K >= 0], [ataque_de_fermat(n, K)] returns
    without raising, and the value is [None] exactly when none of the
    [K] candidates [x = ceil(sqrt n) + i], [0 <= i < K], makes
    [x * x - n] a perfect square. *)
Theorem ataque_de_fermat_agotado n K :
  0 <= n -> 0 <= K ->
  exists r, ataque_de_fermat n K = Ok r /\
    (r = None <->
       forall i, 0 <= i < K ->
         ~ cuadrado_perfecto ((Z.sqrt_up n + i) * (Z.sqrt_up n + i) - n)).
Proof.
  intros Hn HK.
  destruct (ataque_de_fermat_spec n K Hn) as (r & Hr & Hnone & _).
  rewrite Z2Nat.id in Hnone by assumption.
  exists r. split; assumption.
Qed.

Lemma ataque_de_fermat_agotado_witness :
  exists r, ataque_de_fermat 8637 3 = Ok r /\
    (r = None <->
       forall i, 0 <= i < 3 ->
         ~ cuadrado_perfecto ((Z.sqrt_up 8637 + i) * (Z.sqrt_up 8637 + i) - 8637)).
Proof. apply (ataque_de_fermat_agotado 8637 3); lia. Defined.

Example ataque_de_fermat_sin_factores : ataque_de_fermat 8637 3 = Ok None.
Proof. reflexivity. Qed.

(** * Further properties of the code *)

(** ** Extended Euclid on arguments of any sign *)

(** Whatever the signs, the recursion either runs out of frames,
    which needs [|a|] of them at least, or returns Bezout coefficients
    and the gcd up to its sign; the first component is negative as
    soon as [a] is. *)
Lemma mcd_extendido_signos marcos :
  forall a b,
    (mcd_extendido marcos a b = Raise RecursionError /\
     (marcos <= Z.abs_nat a)%nat) \/
    (exists g x y,
       mcd_extendido marcos a b = Ok (g, x, y) /\
       g = a * x + b * y /\ Z.abs g = Z.gcd a b /\
       (a < 0 \/ (a = 0 /\ b < 0) -> g < 0)).
Proof.
  induction marcos as [|marcos IH]; intros a b.
  - left. split; [reflexivity|lia].
  - cbn [mcd_extendido].
    destruct (Z.eqb_spec a 0) as [->|Ha].
    + right. exists b, 0, 1. split; [reflexivity|]. split; [lia|].
      split; [symmetry; apply Z.gcd_0_l|lia].
    + pose proof (Z.mod_bound_or b a Ha) as Hm.
      destruct (IH (b mod a) a) as [[Hrec Hle]|(g & x1 & y1 & Hrec & Hbez & Hgcd & Hneg)].
      * left. rewrite Hrec. split; [reflexivity|lia].
      * right. rewrite Hrec. cbn [rbind].
        exists g, (y1 - b / a * x1), x1.
        split; [reflexivity|]. split; [|split].
        -- pose proof (Z.div_mod b a Ha). rewrite Hbez. nia.
        -- rewrite Hgcd. apply Z.gcd_mod. assumption.
        -- intros Hsig. apply Hneg. lia.
Qed.

(** X1: for integers of any sign, [mcd_extendido(a, b)] either
    raises [RecursionError], which happens only when the free frames
    are at most [|a|], or returns [(g, x, y)] with
    [g = a * x + b * y], where [g] is the gcd of [a] and [b] up to its
    sign. *)
Theorem mcd_extendido_bezout marcos a b :
  (mcd_extendido marcos a b = Raise RecursionError /\
   Z.of_nat marcos <= Z.abs a) \/
  (exists g x y,
     mcd_extendido marcos a b = Ok (g, x, y) /\
     g = a * x + b * y /\ Z.abs g = Z.gcd a b).
Proof.
  destruct (mcd_extendido_signos marcos a b)
    as [[H1 H2]|(g & x & y & H1 & H2 & H3 & _)].
  - left. split; [exact H1|lia].
  - right. exists g, x, y. auto.
Qed.

(** X2: for a negative [a], [inverso_modular(a, m)] never returns a
    value, also when an inverse exists: it raises the no-inverse
    exception, because the first component of [mcd_extendido] is then
    negative, never 1, or [RecursionError] when the frames run out,
    which needs [|a| + 1] of them at least. *)
Theorem inverso_modular_negativo marcos a m :
  a < 0 ->
  (inverso_modular marcos a m = Raise NoExisteInverso \/
   inverso_modular marcos a m = Raise RecursionError) /\
  (Z.abs a + 1 < Z.of_nat marcos ->
   inverso_modular marcos a m = Raise NoExisteInverso).
Proof.
  intros Ha.
  assert (H : inverso_modular marcos a m = Raise NoExisteInverso \/
              (inverso_modular marcos a m = Raise RecursionError /\
               Z.of_nat marcos <= Z.abs a + 1)).
  { destruct marcos as [|marcos]; [right; split; [reflexivity|lia]|].
    cbn [inverso_modular].
    destruct (mcd_extendido_signos marcos a m)
      as [[H1 H2]|(g & x & y & H1 & _ & _ & Hneg)]; rewrite H1; cbn [rbind].
    - right. split; [reflexivity|lia].
    - left. specialize (Hneg ltac:(lia)).
      destruct (Z.eqb_spec g 1); [lia|]. reflexivity. }
  split.
  - destruct H as [H|[H _]]; auto.
  - intros Hm. destruct H as [H|[_ H]]; [exact H|lia].
Qed.

Lemma inverso_modular_negativo_witness :
  (inverso_modular limite_recursion (-3) 7 = Raise NoExisteInverso \/
   inverso_modular limite_recursion (-3) 7 = Raise RecursionError) /\
  inverso_modular limite_recursion (-3) 7 = Raise NoExisteInverso /\
  (-3 * 2) mod 7 = 1.
Proof.
  destruct (inverso_modular_negativo limite_recursion (-3) 7) as [H1 H2]; [lia|].
  split; [exact H1|]. split; [apply H2; vm_compute; reflexivity|reflexivity].
Defined.

(** ** Decomposition of [n - 1] *)

(** X3: for [n <> 1], [descomponer_potencia_dos(n)] returns [(s, d)]
    with [n - 1 = d * 2^s], [d] odd and [s >= 0]; for [n = 1] its loop
    halves zero for ever, whatever the fuel. *)
Theorem descomponer_potencia_dos_correcto n :
  (n <> 1 ->
     exists s d, descomponer_potencia_dos n = Ok (s, d) /\ 0 <= s /\
                 n - 1 = d * 2 ^ s /\ d mod 2 = 1) /\
  (n = 1 -> forall fuel s, descomponer_bucle fuel (n - 1) s = OutOfFuel).
Proof.
  split.
  - apply descomponer_potencia_dos_spec.
  - intros -> fuel s. apply descomponer_bucle_cero.
Qed.

Lemma descomponer_potencia_dos_correcto_witness :
  (exists s d, descomponer_potencia_dos 25 = Ok (s, d) /\ 0 <= s /\
               25 - 1 = d * 2 ^ s /\ d mod 2 = 1) /\
  descomponer_bucle 100 (1 - 1) 0 = OutOfFuel.
Proof.
  split.
  - apply (proj1 (descomponer_potencia_dos_correcto 25)). lia.
  - apply (proj2 (descomponer_potencia_dos_correcto 1)). reflexivity.
Defined.

(** ** Modular exponentiation outside the claims' domain *)

(** X4: for a positive exponent and any modulus other than zero, a
    negative one included, [exponenciacion_modular] returns
    [a^b mod n] with the floor convention: for [n < 0] the result lies
    in [(n, 0]]. *)
Theorem exponenciacion_modular_modulo_no_nulo a b n :
  n <> 0 -> 0 < b ->
  exponenciacion_modular a b n = Ok (a ^ b mod n) /\
  (n < 0 -> n < a ^ b mod n <= 0).
Proof.
  intros Hn Hb. split; [apply exponenciacion_modular_pos; assumption|].
  intros Hneg. apply Z.mod_neg_bound. assumption.
Qed.

Lemma exponenciacion_modular_modulo_no_nulo_witness :
  exponenciacion_modular 3 5 (-7) = Ok (3 ^ 5 mod -7) /\ -7 < 3 ^ 5 mod -7 <= 0.
Proof.
  destruct (exponenciacion_modular_modulo_no_nulo 3 5 (-7)) as [H1 H2]; [lia|lia|].
  split; [exact H1|apply H2; lia].
Defined.

(** X5: a negative exponent is not rejected and no inverse is
    computed: the loop is skipped and 1 is returned for every base;
    the modulus zero raises [ZeroDivisionError] for every base and
    exponent. *)
Theorem exponenciacion_modular_bordes a b n :
  (n = 0 -> exponenciacion_modular a b n = Raise ZeroDivisionError) /\
  (n <> 0 -> b < 0 -> exponenciacion_modular a b n = Ok 1).
Proof.
  split.
  - intros ->. reflexivity.
  - intros Hn Hb. apply exponenciacion_modular_le0; lia.
Qed.

Lemma exponenciacion_modular_bordes_witness :
  exponenciacion_modular 3 5 0 = Raise ZeroDivisionError /\
  exponenciacion_modular 3 (-1) 7 = Ok 1.
Proof.
  split.
  - apply (proj1 (exponenciacion_modular_bordes 3 5 0)). reflexivity.
  - apply (proj2 (exponenciacion_modular_bordes 3 (-1) 7)); lia.
Defined.

Lemma exponenciacion_modular_total a b n :
  n <> 0 -> exists r, exponenciacion_modular a b n = Ok r.
Proof.
  intros Hn. destruct (Z.lt_ge_cases 0 b).
  - eexists. apply exponenciacion_modular_pos; assumption.
  - eexists. apply exponenciacion_modular_le0; assumption.
Qed.

(** ** Miller-Rabin beyond primes *)

Lemma potencia_dos_uno n x m m' :
  1 < n -> 0 <= m <= m' -> x ^ (2 ^ m) mod n = 1 -> x ^ (2 ^ m') mod n = 1.
Proof.
  intros Hn Hm H1.
  replace m' with (m + (m' - m)) by lia.
  rewrite Z.pow_add_r, Z.pow_mul_r by (try apply Z.pow_nonneg; lia).
  rewrite <- Z.mod_pow_l, H1, Z.pow_1_l by (apply Z.pow_nonneg; lia).
  apply Z.mod_1_l. lia.
Qed.

(** A loop that answers true has met [n - 1] after some squarings. *)
Lemma ronda_bucle_true k : forall n x,
  ronda_bucle k n x = true ->
  exists j, 1 <= j <= Z.of_nat k /\ x ^ (2 ^ j) mod n = n - 1.
Proof.
  induction k as [|k IH]; intros n x H; [discriminate H|].
  cbn [ronda_bucle] in H.
  destruct (Z.eqb_spec ((x * x) mod n) (n - 1)) as [He|Hne].
  - exists 1. split; [lia|]. change (2 ^ 1) with 2. rewrite Z.pow_2_r. exact He.
  - destruct (IH _ _ H) as (j & Hj & Hpow).
    exists (j + 1). split; [lia|].
    rewrite Z.mod_pow_l in Hpow.
    rewrite Z.pow_add_r, Z.pow_1_r, (Z.mul_comm (2 ^ j)), Z.pow_mul_r, Z.pow_2_r
      by (try apply Z.pow_nonneg; lia).
    exact Hpow.
Qed.

(** X6: for an odd [n > 2], a base that passes
    [ronda_miller_rabin] satisfies Fermat's congruence
    [a^(n-1) = 1 (mod n)]; a base that fails Fermat's test is never
    accepted by the round. *)
Theorem ronda_miller_rabin_implica_fermat n a :
  2 < n -> n mod 2 = 1 ->
  ronda_miller_rabin n a = Ok true ->
  a ^ (n - 1) mod n = 1.
Proof.
  intros Hn Hodd Hr. unfold ronda_miller_rabin in Hr.
  destruct (descomponer_potencia_dos_spec n ltac:(lia)) as (s & d & Hrun & Hs & Hfac & Hd2).
  rewrite Hrun in Hr. cbn [rbind] in Hr.
  assert (Hd : 0 < d).
  { assert (0 < 2 ^ s) by (apply Z.pow_pos_nonneg; lia). nia. }
  assert (Hs1 : 1 <= s).
  { destruct (Z.eq_dec s 0) as [->|]; [|lia]. exfalso.
    rewrite Z.pow_0_r, Z.mul_1_r in Hfac.
    replace n with (d + 1) in Hodd by lia.
    rewrite Zplus_mod, Hd2 in Hodd. discriminate Hodd. }
  rewrite exponenciacion_modular_pos in Hr by lia. cbn [rbind] in Hr.
  set (x := a ^ d mod n) in *.
  assert (Hx : a ^ (n - 1) mod n = x ^ (2 ^ s) mod n).
  { unfold x. rewrite Z.mod_pow_l, <- Z.pow_mul_r, <- Hfac by (try apply Z.pow_nonneg; lia).
    reflexivity. }
  rewrite Hx.
  assert (Hm1 : forall j, 0 <= j < s -> x ^ (2 ^ j) mod n = n - 1 -> x ^ (2 ^ s) mod n = 1).
  { intros j Hj Hp. apply (potencia_dos_uno n x (j + 1) s); [lia|lia|].
    rewrite Z.pow_add_r, Z.pow_1_r, Z.pow_mul_r, Z.pow_2_r by (try apply Z.pow_nonneg; lia).
    rewrite <- Z.mul_mod_idemp_l, <- Z.mul_mod_idemp_r, Hp by lia.
    replace ((n - 1) * (n - 1)) with (1 + (n - 2) * n) by ring.
    rewrite Z.mod_add, Z.mod_1_l; lia. }
  destruct (Z.eqb_spec x 1) as [H1|H1].
  - apply (potencia_dos_uno n x 0 s); [lia|lia|].
    rewrite Z.pow_0_r, Z.pow_1_r, H1. apply Z.mod_1_l. lia.
  - destruct (Z.eqb_spec x (n - 1)) as [H2|H2].
    + apply (Hm1 0); [lia|]. rewrite Z.pow_0_r, Z.pow_1_r.
      unfold x. rewrite Z.mod_mod by lia. exact H2.
    + cbn [orb] in Hr. injection Hr as Hr.
      destruct (ronda_bucle_true _ _ _ Hr) as (j & Hj & Hp).
      apply (Hm1 j); [lia|exact Hp].
Qed.

Lemma ronda_miller_rabin_implica_fermat_witness : 7 ^ (25 - 1) mod 25 = 1.
Proof. apply (ronda_miller_rabin_implica_fermat 25 7); [lia|reflexivity|reflexivity]. Defined.

Lemma ronda_miller_rabin_total n a :
  n <> 0 -> n <> 1 -> exists b, ronda_miller_rabin n a = Ok b.
Proof.
  intros H0 H1. unfold ronda_miller_rabin.
  destruct (descomponer_potencia_dos_spec n H1) as (s & d & Hrun & _).
  rewrite Hrun. cbn [rbind].
  destruct (exponenciacion_modular_total a d n H0) as [x Hx].
  rewrite Hx. cbn [rbind].
  destruct ((x =? 1) || (x =? n - 1)); eexists; reflexivity.
Qed.

Lemma rondas_bucle_total k : forall n g,
  4 < n -> exists b g', rondas_bucle k n g = Ok (b, g').
Proof.
  induction k as [|k IH]; intros n g Hn.
  - exists true, g. reflexivity.
  - cbn [rondas_bucle].
    destruct (randrange_spec 2 (n - 1) g ltac:(lia)) as (a & Hr & Ha).
    rewrite (bind_Ok _ _ _ _ _ Hr).
    destruct (ronda_miller_rabin_total n a ltac:(lia) ltac:(lia)) as [b Hb].
    unfold lift at 1. unfold bind at 1. rewrite Hb. cbn [rbind].
    destruct b; cbn [negb].
    + apply IH. assumption.
    + eexists. eexists. reflexivity.
Qed.

(** X7: [es_primo_probable] returns a boolean for every [n], every
    number of rounds and every random source: [randrange] is never
    called on an empty range, no division by zero occurs and the
    decomposition loop is never entered with [n = 1]. *)
Theorem es_primo_probable_total n rondas g :
  exists b g', es_primo_probable n rondas g = Ok (b, g').
Proof.
  unfold es_primo_probable.
  destruct (Z.ltb_spec n 2); [exists false, g; reflexivity|].
  destruct (Z.eqb_spec n 2); [exists true, g; reflexivity|].
  destruct (Z.eqb_spec n 3); [exists true, g; reflexivity|]. cbn [orb].
  destruct (Z.eqb_spec (n mod 2) 0) as [He|Ho]; [exists false, g; reflexivity|].
  apply rondas_bucle_total.
  assert (n <> 4) by (intros ->; apply Ho; reflexivity). lia.
Qed.

(** X8: with [rondas <= 0] no witness is drawn and every odd
    [n > 3] is declared a probable prime, composites included; the
    answer is true exactly for 2, 3 and the odd numbers above 4. *)
Theorem es_primo_probable_sin_rondas n rondas g :
  rondas <= 0 ->
  es_primo_probable n rondas g =
    Ok ((n =? 2) || (n =? 3) || ((4 <? n) && Z.odd n), g).
Proof.
  intros Hr. unfold es_primo_probable.
  destruct (Z.ltb_spec n 2).
  { destruct (Z.eqb_spec n 2); [lia|]. destruct (Z.eqb_spec n 3); [lia|].
    destruct (Z.ltb_spec 4 n); [lia|]. reflexivity. }
  destruct (Z.eqb_spec n 2); [reflexivity|].
  destruct (Z.eqb_spec n 3); [reflexivity|]. cbn [orb].
  rewrite Zodd_mod.
  destruct (Z.eqb_spec (n mod 2) 0) as [He|Ho].
  - rewrite He. cbn. rewrite andb_false_r. reflexivity.
  - pose proof (Z.mod_pos_bound n 2 ltac:(lia)).
    assert (H1 : n mod 2 = 1) by lia. rewrite H1.
    assert (n <> 4) by (intros ->; discriminate H1).
    destruct (Z.ltb_spec 4 n); [|lia].
    replace (Z.to_nat rondas) with 0%nat by lia. reflexivity.
Qed.

Lemma es_primo_probable_sin_rondas_witness :
  es_primo_probable 9 0 rng_17_19 = Ok (true, rng_17_19).
Proof. apply (es_primo_probable_sin_rondas 9 0 rng_17_19). lia. Defined.

(** X9: numbers below 2 and even numbers above 2 are rejected for
    every number of rounds, without a draw from the random source. *)
Theorem es_primo_probable_rechaza_par n rondas g :
  n < 2 \/ (2 < n /\ n mod 2 = 0) ->
  es_primo_probable n rondas g = Ok (false, g).
Proof.
  intros Hn. unfold es_primo_probable.
  destruct (Z.ltb_spec n 2); [reflexivity|].
  destruct Hn as [|[Hn He]]; [lia|].
  destruct (Z.eqb_spec n 2); [lia|].
  destruct (Z.eqb_spec n 3) as [->|]; [discriminate He|]. cbn [orb].
  rewrite He. reflexivity.
Qed.

Lemma es_primo_probable_rechaza_par_witness :
  es_primo_probable 10 40 rng_17_19 = Ok (false, rng_17_19).
Proof.
  apply (es_primo_probable_rechaza_par 10 40 rng_17_19).
  right. split; [lia|reflexivity].
Defined.

(** ** Candidates and generated primes *)

(** Forcing the top and the bottom bit of a number of [bits] bits. *)
Lemma lor_bits bits r :
  1 <= bits -> 0 <= r < 2 ^ bits ->
  let n := Z.lor (Z.lor r (Z.shiftl 1 (bits - 1))) 1 in
  Z.odd n = true /\ 2 ^ (bits - 1) <= n < 2 ^ bits.
Proof.
  intros Hb Hr. cbv zeta. rewrite Z.shiftl_1_l.
  set (n := Z.lor (Z.lor r (2 ^ (bits - 1))) 1).
  assert (Hodd : Z.odd n = true).
  { unfold n. rewrite <- Z.bit0_odd, Z.lor_spec. apply orb_true_r. }
  split; [exact Hodd|].
  assert (Hp : 0 < 2 ^ (bits - 1)) by (apply Z.pow_pos_nonneg; lia).
  assert (Hn0 : 0 <= n).
  { unfold n. apply Z.lor_nonneg. split; [apply Z.lor_nonneg|]; lia. }
  assert (Hbit : Z.testbit n (bits - 1) = true).
  { unfold n. rewrite !Z.lor_spec, Z.pow2_bits_true by lia.
    rewrite orb_true_r. reflexivity. }
  assert (Hhigh : forall i, bits <= i -> Z.testbit n i = false).
  { intros i Hi. unfold n. rewrite !Z.lor_spec.
    rewrite Z.pow2_bits_false by lia.
    replace (Z.testbit 1 i) with false
      by (symmetry; change 1 with (2 ^ 0); apply Z.pow2_bits_false; lia).
    rewrite !orb_false_r.
    destruct (Z.eq_dec r 0) as [->|]; [apply Z.bits_0|].
    apply Z.bits_above_log2; [lia|].
    pose proof (Z.pow_le_mono_r 2 bits i ltac:(lia) Hi).
    apply Z.log2_lt_pow2; lia. }
  assert (Hnpos : 0 < n).
  { destruct (Z.eq_dec n 0) as [E|]; [|lia]. rewrite E in Hodd. discriminate Hodd. }
  split.
  - destruct (Z.lt_ge_cases n (2 ^ (bits - 1))) as [Hlt|]; [|assumption].
    exfalso. rewrite Z.bits_above_log2 in Hbit; [discriminate|lia|].
    apply Z.log2_lt_pow2; lia.
  - destruct (Z.lt_ge_cases n (2 ^ bits)) as [|Hge]; [assumption|].
    exfalso.
    pose proof (Z.bit_log2 n Hnpos) as Hl.
    rewrite Hhigh in Hl; [discriminate|].
    apply Z.log2_le_pow2; lia.
Qed.

Lemma generar_impar_aleatorio_spec bits g :
  (1 <= bits ->
     exists n, generar_impar_aleatorio bits g = Ok (n, fun i => g (S i)) /\
               Z.odd n = true /\ 2 ^ (bits - 1) <= n < 2 ^ bits) /\
  (bits <= 0 -> generar_impar_aleatorio bits g = Raise ValueError).
Proof.
  unfold generar_impar_aleatorio, getrandbits, bind, siguiente, ret, raise.
  split; intros Hb.
  - destruct (Z.ltb_spec bits 0); [lia|]. cbn [rbind].
    destruct (Z.ltb_spec (bits - 1) 0); [lia|].
    eexists. split; [reflexivity|].
    apply lor_bits; [assumption|].
    apply Z.mod_pos_bound. apply Z.pow_pos_nonneg; lia.
  - destruct (Z.ltb_spec bits 0); [reflexivity|]. cbn [rbind].
    destruct (Z.ltb_spec (bits - 1) 0); [reflexivity|lia].
Qed.

(** X10: for [bits >= 1], [generar_impar_aleatorio] consumes one
    draw and returns an odd number of exactly [bits] bits,
    [2^(bits-1) <= n < 2^bits]; for [bits <= 0] it raises
    [ValueError]. *)
Theorem generar_impar_aleatorio_correcto bits g :
  (1 <= bits ->
     exists n, generar_impar_aleatorio bits g = Ok (n, fun i => g (S i)) /\
               Z.odd n = true /\ 2 ^ (bits - 1) <= n < 2 ^ bits) /\
  (bits <= 0 -> generar_impar_aleatorio bits g = Raise ValueError).
Proof. apply generar_impar_aleatorio_spec. Qed.

Lemma generar_impar_aleatorio_correcto_witness :
  (exists n, generar_impar_aleatorio 5 rng_17_19 = Ok (n, fun i => rng_17_19 (S i)) /\
             Z.odd n = true /\ 2 ^ (5 - 1) <= n < 2 ^ 5) /\
  generar_impar_aleatorio 0 rng_17_19 = Raise ValueError.
Proof.
  split.
  - apply (proj1 (generar_impar_aleatorio_correcto 5 rng_17_19)). lia.
  - apply (proj2 (generar_impar_aleatorio_correcto 0 rng_17_19)). lia.
Defined.

Lemma generar_impar_aleatorio_inv bits g n g' :
  generar_impar_aleatorio bits g = Ok (n, g') ->
  1 <= bits /\ Z.odd n = true /\ 2 ^ (bits - 1) <= n < 2 ^ bits.
Proof.
  intros H. destruct (generar_impar_aleatorio_spec bits g) as [Hok Hbad].
  destruct (Z.le_gt_cases bits 0) as [Hle|Hgt].
  - rewrite (Hbad Hle) in H. discriminate H.
  - destruct (Hok ltac:(lia)) as (n' & Hrun & Hodd & Hrange).
    rewrite Hrun in H. injection H as <- _. split; [lia|auto].
Qed.

(** X11: a number returned by [generar_primo(bits)] is odd and has
    exactly [bits] bits, and a return is possible only for
    [bits >= 2]. *)
Theorem generar_primo_correcto fuel : forall bits g p g',
  generar_primo fuel bits g = Ok (p, g') ->
  2 <= bits /\ Z.odd p = true /\ 2 ^ (bits - 1) <= p < 2 ^ bits.
Proof.
  induction fuel as [|fuel IH]; intros bits g p g' H; [discriminate H|].
  pose proof (generar_primo_spec _ _ _ _ _ H) as Hp3.
  cbn [generar_primo] in H.
  inv_bind H n g1 Hn. inv_bind H b g2 Hb.
  destruct b.
  - unfold ret in H. injection H as <- <-.
    apply generar_impar_aleatorio_inv in Hn. destruct Hn as (Hb1 & Hodd & Hrange).
    split; [|auto].
    destruct (Z.eq_dec bits 1) as [->|]; [|lia]. simpl in Hrange. lia.
  - eapply IH; eassumption.
Qed.

Lemma generar_primo_correcto_witness :
  2 <= 5 /\ Z.odd 17 = true /\ 2 ^ (5 - 1) <= 17 < 2 ^ 5.
Proof.
  apply (generar_primo_correcto 1 5 rng_17_19 17 (avanzar 41 rng_17_19)).
  reflexivity.
Defined.

Lemma generar_primo_un_bit fuel : forall g, generar_primo fuel 1 g = OutOfFuel.
Proof.
  induction fuel as [|fuel IH]; intros g; [reflexivity|].
  cbn [generar_primo].
  destruct (generar_impar_aleatorio_spec 1 g) as [Hok _].
  destruct (Hok ltac:(lia)) as (n & Hrun & _ & Hrange).
  simpl in Hrange. assert (n = 1) by lia. subst n.
  rewrite (bind_Ok _ _ _ _ _ Hrun).
  unfold es_primo_probable. cbn [Z.ltb Z.compare Pos.compare Pos.compare_cont].
  unfold bind at 1, ret at 1. cbn [rbind]. apply IH.
Qed.

(** X12: [generar_primo] has no answer for small sizes: for
    [bits <= 0] the first candidate raises [ValueError], and for
    [bits = 1] every candidate is 1, which is rejected, so the loop
    never ends whatever the random source draws. *)
Theorem generar_primo_bits_pequenos fuel bits g :
  (bits <= 0 -> generar_primo (S fuel) bits g = Raise ValueError) /\
  (bits = 1 -> generar_primo fuel bits g = OutOfFuel).
Proof.
  split.
  - intros Hb. cbn [generar_primo].
    destruct (generar_impar_aleatorio_spec bits g) as [_ Hbad].
    unfold bind at 1. rewrite (Hbad Hb). reflexivity.
  - intros ->. apply generar_primo_un_bit.
Qed.

Lemma generar_primo_bits_pequenos_witness :
  generar_primo 1 0 rng_17_19 = Raise ValueError /\
  generar_primo 1000 1 rng_17_19 = OutOfFuel.
Proof.
  split.
  - apply (proj1 (generar_primo_bits_pequenos 0 0 rng_17_19)). lia.
  - apply (proj2 (generar_primo_bits_pequenos 1000 1 rng_17_19)). reflexivity.
Defined.

(** X13: a candidate that is prime is never discarded: if the first
    candidate drawn is prime, [generar_primo] returns it. *)
Theorem generar_primo_acepta_primo fuel bits g n g1 :
  generar_impar_aleatorio bits g = Ok (n, g1) ->
  Z.prime n ->
  exists g', generar_primo (S fuel) bits g = Ok (n, g').
Proof.
  intros Hn Hp. cbn [generar_primo].
  rewrite (bind_Ok _ _ _ _ _ Hn).
  destruct (es_primo_probable_primo n 40 g1 Hp) as [g' Ht].
  rewrite (bind_Ok _ _ _ _ _ Ht). exists g'. reflexivity.
Qed.

Lemma generar_primo_acepta_primo_witness :
  exists g', generar_primo 1 5 rng_17_19 = Ok (17, g').
Proof.
  apply (generar_primo_acepta_primo 0 5 rng_17_19 17 (fun i => rng_17_19 (S i))).
  - reflexivity.
  - exact primo_17.
Defined.

(** ** The cipher outside its contract *)

Lemma exponenciacion_modular_mod a b n :
  exponenciacion_modular (a mod n) b n = exponenciacion_modular a b n.
Proof.
  unfold exponenciacion_modular. destruct (Z.eqb_spec n 0); [reflexivity|].
  rewrite Z.mod_mod by assumption. reflexivity.
Qed.

(** X14: with a key of two different primes, a message of any size
    or sign is encrypted as its residue modulo [n], and the round
    trip gives [m mod n] back; two messages congruent modulo [n]
    cannot be told apart. *)
Theorem rsa_ida_y_vuelta_reduce p q e d m :
  Z.prime p -> Z.prime q -> p <> q -> 0 < e -> 0 <= d ->
  (e * d) mod ((p - 1) * (q - 1)) = 1 ->
  cifrar_rsa m (p * q, e) = cifrar_rsa (m mod (p * q)) (p * q, e) /\
  (let? c := cifrar_rsa m (p * q, e) in descifrar_rsa c (p * q, d))
    = Ok (m mod (p * q)).
Proof.
  intros Hp Hq Hpq He Hd Hed.
  pose proof (Z.prime_ge_2 _ Hp). pose proof (Z.prime_ge_2 _ Hq).
  assert (Hn : 1 < p * q) by nia.
  split.
  - unfold cifrar_rsa. symmetry. apply exponenciacion_modular_mod.
  - unfold cifrar_rsa. rewrite <- exponenciacion_modular_mod.
    apply (rsa_ida_y_vuelta p q e d (m mod (p * q))); auto.
    apply Z.mod_pos_bound. lia.
Qed.

Lemma rsa_ida_y_vuelta_reduce_witness :
  cifrar_rsa 1000 (17 * 19, 65537) = cifrar_rsa (1000 mod (17 * 19)) (17 * 19, 65537) /\
  (let? c := cifrar_rsa 1000 (17 * 19, 65537) in descifrar_rsa c (17 * 19, 161))
    = Ok (1000 mod (17 * 19)).
Proof.
  apply (rsa_ida_y_vuelta_reduce 17 19 65537 161 1000);
    [exact primo_17|exact primo_19|lia|lia|lia|reflexivity].
Defined.

Lemma rsa_primos_iguales p e d :
  2 <= p -> 0 < e -> 0 < d -> 2 <= e * d ->
  (let? c := cifrar_rsa p (p * p, e) in descifrar_rsa c (p * p, d)) = Ok 0.
Proof.
  intros Hp He Hd Hed.
  assert (Hn : 1 < p * p) by nia.
  unfold cifrar_rsa, descifrar_rsa.
  rewrite exponenciacion_modular_spec by lia. cbn [rbind].
  rewrite exponenciacion_modular_spec by lia.
  rewrite Z.mod_pow_l, <- Z.pow_mul_r by lia. f_equal.
  apply Z.mod_divide; [lia|].
  replace (e * d) with (2 + (e * d - 2)) by lia.
  rewrite Z.pow_add_r, Z.pow_2_r by lia.
  apply Z.divide_factor_l.
Qed.

(** X15: [generar_claves_rsa] does not compare its two primes; when
    both draws give the same [p] and a key pair is returned, the
    modulus is [p * p] and the message [p], which is below the
    modulus, decrypts to 0. *)
Theorem generar_claves_rsa_primos_iguales fuel bits g p g1 g2 pub priv g3 :
  generar_primo fuel bits g = Ok (p, g1) ->
  generar_primo fuel bits g1 = Ok (p, g2) ->
  generar_claves_rsa fuel bits g = Ok ((pub, priv), g3) ->
  fst pub = p * p /\ 0 <= p < fst pub /\
  (let? c := cifrar_rsa p pub in descifrar_rsa c priv) = Ok 0 /\ p <> 0.
Proof.
  intros Hg1 Hg2 Hrun.
  pose proof (generar_primo_spec _ _ _ _ _ Hg1) as Hp3.
  assert (Hphi : 4 <= (p - 1) * (p - 1)) by nia.
  rewrite (generar_claves_rsa_pasos _ _ _ _ _ _ _ Hg1 Hg2) in Hrun.
  destruct (inverso_modular_65537 ((p - 1) * (p - 1)) ltac:(lia))
    as [Hok Hbad].
  destruct (Z.eq_dec (Z.gcd 65537 ((p - 1) * (p - 1))) 1) as [Hg|Hg].
  - destruct (Hok Hg) as (d & Hd & Hrange & Hinv).
    rewrite Hd in Hrun. cbn [rbind] in Hrun.
    injection Hrun as <- <- _. cbn [fst].
    rewrite Z.mod_1_l in Hinv by lia.
    assert (d <> 0) by (intros ->; rewrite Z.mul_0_r, Z.mod_0_l in Hinv; lia).
    split; [reflexivity|]. split; [nia|]. split; [|lia].
    apply rsa_primos_iguales; lia.
  - rewrite (Hbad Hg) in Hrun. discriminate Hrun.
Qed.

Lemma generar_claves_rsa_primos_iguales_witness :
  fst (289, 65537) = 17 * 17 /\ 0 <= 17 < fst (289, 65537) /\
  (let? c := cifrar_rsa 17 (289, 65537) in descifrar_rsa c (289, 1)) = Ok 0 /\
  17 <> 0.
Proof.
  apply (generar_claves_rsa_primos_iguales 1 5 rng_17_17 17 (avanzar 41 rng_17_17)
           (avanzar 82 rng_17_17) (289, 65537) (289, 1) (avanzar 82 rng_17_17));
    reflexivity.
Defined.

(** The loop stops at the first candidate that gives a square. *)
Lemma fermat_bucle_primero k :
  forall n x u v, 0 <= x -> n <= x * x ->
    fermat_bucle k n x = Ok (Some (u, v)) ->
    exists i y, 0 <= i < Z.of_nat k /\ 0 <= y /\
      (x + i) * (x + i) - n = y * y /\
      u = x + i - y /\ v = x + i + y /\
      forall j, 0 <= j < i -> ~ cuadrado_perfecto ((x + j) * (x + j) - n).
Proof.
  induction k as [|k IH]; intros n x u v Hx Hn Hrun; [discriminate Hrun|].
  cbn [fermat_bucle] in Hrun. cbv zeta in Hrun.
  rewrite raiz_entera_spec in Hrun by lia. cbn [rbind] in Hrun.
  pose proof (Z.sqrt_nonneg (x * x - n)) as Hy.
  pose proof (cuadrado_perfecto_sqrt (x * x - n) ltac:(lia)) as Hcp.
  destruct (Z.eqb_spec (Z.sqrt (x * x - n) * Z.sqrt (x * x - n)) (x * x - n)) as [He|Hne].
  - injection Hrun as <- <-.
    exists 0, (Z.sqrt (x * x - n)). rewrite !Z.add_0_r.
    repeat split; auto; try lia.
  - destruct (IH n (x + 1) u v ltac:(lia) ltac:(nia) Hrun)
      as (i & y & Hi & Hy0 & Hsq & Hu & Hv & Hmin).
    exists (i + 1), y. replace (x + (i + 1)) with (x + 1 + i) by lia.
    repeat split; auto; try lia.
    intros j Hj. destruct (Z.eq_dec j 0) as [->|].
    + rewrite Z.add_0_r. intros Hc. apply Hne, Hcp, Hc.
    + replace (x + j) with (x + 1 + (j - 1)) by lia. apply Hmin. lia.
Qed.

Lemma media_cuadrado p q :
  p mod 2 = 1 -> q mod 2 = 1 ->
  2 * ((p + q) / 2) = p + q /\ 2 * ((q - p) / 2) = q - p /\
  ((p + q) / 2) * ((p + q) / 2) - p * q = ((q - p) / 2) * ((q - p) / 2).
Proof.
  intros Hp Hq.
  pose proof (Z.div_mod p 2 ltac:(lia)). pose proof (Z.div_mod q 2 ltac:(lia)).
  assert (H1 : 2 * ((p + q) / 2) = p + q).
  { pose proof (Z.div_mod (p + q) 2 ltac:(lia)).
    assert ((p + q) mod 2 = 0) by (rewrite Zplus_mod, Hp, Hq; reflexivity). lia. }
  assert (H2 : 2 * ((q - p) / 2) = q - p).
  { pose proof (Z.div_mod (q - p) 2 ltac:(lia)).
    assert ((q - p) mod 2 = 0) by (rewrite Zminus_mod, Hp, Hq; reflexivity). lia. }
  split; [assumption|]. split; [assumption|].
  set (a := (p + q) / 2) in *. set (b := (q - p) / 2) in *. clearbody a b.
  assert (Ep : p = a - b) by lia. assert (Eq : q = a + b) by lia.
  rewrite Ep, Eq. ring.
Qed.

Lemma factores_de_producto p q u v :
  Z.prime p -> Z.prime q -> p <= q ->
  0 < u <= v -> u * v = p * q -> u + v <= p + q ->
  u = p /\ v = q.
Proof.
  intros Hp Hq Hpq Huv Hprod Hsum.
  pose proof (Z.prime_ge_2 _ Hp). pose proof (Z.prime_ge_2 _ Hq).
  assert (Hd : (p | u * v)) by (rewrite Hprod; apply Z.divide_factor_l).
  apply Z.divide_prime_mul in Hd; [|assumption].
  destruct Hd as [[a Ha]|[b Hb]].
  - (* u = a * p *)
    assert (Hav : a * v = q) by nia.
    assert (Hv : (v | q)) by (exists a; lia).
    apply Z.divide_prime_r in Hv; [|assumption].
    destruct Hv as [Hv|[Hv|[Hv|Hv]]].
    + lia.
    + lia.
    + assert (u = 1) by lia. subst u v. nia.
    + subst v. assert (a = 1) by nia. lia.
  - (* v = b * p *)
    assert (Hub : u * b = q) by nia.
    assert (Hu : (u | q)) by (exists b; lia).
    apply Z.divide_prime_r in Hu; [|assumption].
    destruct Hu as [Hu|[Hu|[Hu|Hu]]].
    + lia.
    + lia.
    + subst u. assert (b = q) by lia. subst b. nia.
    + subst u. assert (b = 1) by nia. lia.
Qed.

Lemma ataque_de_fermat_primos p q K :
  Z.prime p -> Z.prime q -> 2 < p <= q ->
  (p + q) / 2 - Z.sqrt_up (p * q) < K ->
  ataque_de_fermat (p * q) K = Ok (Some (p, q)).
Proof.
  intros Hp Hq Hpq HK.
  pose proof (primo_impar p Hp ltac:(lia)) as Hp2.
  pose proof (primo_impar q Hq ltac:(lia)) as Hq2.
  destruct (media_cuadrado p q Hp2 Hq2) as (Hx0 & Hy0 & Hsq0).
  set (n := p * q) in *.
  assert (Hn : 0 <= n) by (unfold n; nia).
  destruct (sqrt_up_cota n Hn) as [Hs0 Hs1].
  assert (Hle : Z.sqrt_up n <= (p + q) / 2).
  { apply Z.sqrt_up_le_square; [lia|lia|]. nia. }
  destruct (ataque_de_fermat_spec n K Hn) as (r & Hr & Hnone & _).
  destruct r as [[u v]|].
  - rewrite Hr. do 2 f_equal.
    unfold ataque_de_fermat in Hr.
    rewrite raiz_entera_spec in Hr by assumption. cbn [rbind] in Hr.
    rewrite techo_raiz in Hr by assumption.
    destruct (fermat_bucle_primero _ _ _ _ _ Hs0 Hs1 Hr)
      as (i & y & Hi & Hy & Hsq & Hu & Hv & Hmin).
    assert (Hi0 : i <= (p + q) / 2 - Z.sqrt_up n).
    { destruct (Z.le_gt_cases i ((p + q) / 2 - Z.sqrt_up n)) as [|Hgt]; [assumption|].
      exfalso. apply (Hmin ((p + q) / 2 - Z.sqrt_up n)); [lia|].
      replace (Z.sqrt_up n + ((p + q) / 2 - Z.sqrt_up n)) with ((p + q) / 2) by lia.
      exists ((q - p) / 2). symmetry. exact Hsq0. }
    assert (Huv : u * v = p * q) by (fold n; subst u v; nia).
    assert (Hpos : 0 < u <= v).
    { assert (0 <= v) by lia. assert (0 < p * q) by nia. nia. }
    destruct (factores_de_producto p q u v Hp Hq ltac:(lia) Hpos Huv ltac:(lia)) as [-> ->].
    reflexivity.
  - exfalso.
    assert (Hall := proj1 Hnone eq_refl).
    apply (Hall ((p + q) / 2 - Z.sqrt_up n)).
    + assert (0 <= K) by lia. rewrite Z2Nat.id by lia. lia.
    + replace (Z.sqrt_up n + ((p + q) / 2 - Z.sqrt_up n)) with ((p + q) / 2) by lia.
      exists ((q - p) / 2). symmetry. exact Hsq0.
Qed.

(** X16: for odd primes [p <= q], [ataque_de_fermat(p * q, K)]
    returns exactly [(p, q)] as soon as [K] exceeds the distance from
    the ceiling of the square root of [p * q] to [(p + q) / 2]. *)
Theorem ataque_de_fermat_completo p q K :
  Z.prime p -> Z.prime q -> 2 < p <= q ->
  (p + q) / 2 - Z.sqrt_up (p * q) < K ->
  ataque_de_fermat (p * q) K = Ok (Some (p, q)).
Proof. apply ataque_de_fermat_primos. Qed.

Lemma ataque_de_fermat_completo_witness :
  ataque_de_fermat (17 * 19) 1 = Ok (Some (17, 19)).
Proof.
  apply (ataque_de_fermat_completo 17 19 1);
    [exact primo_17|exact primo_19|lia|reflexivity].
Defined.

(** X17: a perfect square [r * r] is split as [(r, r)] in the first
    iteration. *)
Theorem ataque_de_fermat_cuadrado r K :
  0 <= r -> 1 <= K -> ataque_de_fermat (r * r) K = Ok (Some (r, r)).
Proof.
  intros Hr HK. unfold ataque_de_fermat.
  rewrite raiz_entera_spec by nia. cbn [rbind].
  rewrite Z.sqrt_square by assumption.
  rewrite Z.ltb_irrefl.
  destruct (Z.to_nat K) as [|k] eqn:Ek; [lia|].
  cbn [fermat_bucle]. cbv zeta. rewrite Z.sub_diag.
  change (raiz_entera 0) with (Ok 0 : result Z). cbn [rbind].
  cbn [Z.mul Z.eqb]. rewrite Z.sub_0_r, Z.add_0_r. reflexivity.
Qed.

Lemma ataque_de_fermat_cuadrado_witness :
  ataque_de_fermat (17 * 17) 1 = Ok (Some (17, 17)).
Proof. apply (ataque_de_fermat_cuadrado 17 1); lia. Defined.

(** X18: a negative [n] makes [ataque_de_fermat] raise the
    [ValueError] of [raiz_entera], whatever [K]; for [n >= 0] a bound
    [K <= 0] gives [None] without a single candidate tried. *)
Theorem ataque_de_fermat_bordes n K :
  (n < 0 -> ataque_de_fermat n K = Raise ValueError) /\
  (0 <= n -> K <= 0 -> ataque_de_fermat n K = Ok None).
Proof.
  split.
  - intros Hn. unfold ataque_de_fermat, raiz_entera, raiz_entera_con.
    destruct (Z.ltb_spec n 0); [reflexivity|lia].
  - intros Hn HK. unfold ataque_de_fermat.
    rewrite raiz_entera_spec by assumption. cbn [rbind].
    replace (Z.to_nat K) with 0%nat by lia. reflexivity.
Qed.

Lemma ataque_de_fermat_bordes_witness :
  ataque_de_fermat (-15) 10 = Raise ValueError /\ ataque_de_fermat 15 0 = Ok None.
Proof.
  split.
  - apply (proj1 (ataque_de_fermat_bordes (-15) 10)). lia.
  - apply (proj2 (ataque_de_fermat_bordes 15 0)); lia.
Defined.

Lemma diferencia_de_cuadrados_mod4 x y n :
  n mod 4 = 2 -> x * x - n <> y * y.
Proof.
  intros Hn Heq.
  pose proof (Z.div_mod n 4 ltac:(lia)).
  pose proof (Z.div_mod x 2 ltac:(lia)). pose proof (Z.mod_pos_bound x 2 ltac:(lia)).
  pose proof (Z.div_mod y 2 ltac:(lia)). pose proof (Z.mod_pos_bound y 2 ltac:(lia)).
  set (a := x / 2) in *. set (b := y / 2) in *. set (c := n / 4) in *.
  assert (Hx : x mod 2 = 0 \/ x mod 2 = 1) by lia.
  assert (Hy : y mod 2 = 0 \/ y mod 2 = 1) by lia.
  destruct Hx as [Hx|Hx], Hy as [Hy|Hy]; rewrite Hx, Hy in *.
  - assert (4 * (a * a - b * b - c) = 2) by nia. lia.
  - assert (4 * (a * a - b * b - b - c) = 3) by nia. lia.
  - assert (4 * (a * a + a - b * b - c) = 1) by nia. lia.
  - assert (4 * (a * a + a - b * b - b - c) = 2) by nia. lia.
Qed.

(** X19: a number [n >= 0] that is 2 modulo 4, such as twice an odd
    prime, is never a difference of two squares, so
    [ataque_de_fermat] returns [None] for every bound [K]. *)
Theorem ataque_de_fermat_par n K :
  0 <= n -> n mod 4 = 2 -> ataque_de_fermat n K = Ok None.
Proof.
  intros Hn Hm.
  destruct (ataque_de_fermat_spec n K Hn) as (r & Hr & Hnone & _).
  rewrite Hr. f_equal. apply Hnone.
  intros i _ [y Hy]. symmetry in Hy.
  exact (diferencia_de_cuadrados_mod4 _ _ _ Hm Hy).
Qed.

Lemma ataque_de_fermat_par_witness : ataque_de_fermat (2 * 17) 50 = Ok None.
Proof. apply (ataque_de_fermat_par (2 * 17) 50); [lia|reflexivity]. Defined.

(** ** Breaking a key with close primes *)

Section RelojProps.

Variable tiempo : Type.
Variable resta : tiempo -> tiempo -> tiempo.

(** X20: for a modulus of two different odd primes, a public exponent
    below [2^256] coprime to [(p-1)(q-1)], for which the recursion of
    [mcd_extendido] stays far below the recursion limit, and a bound
    [K] above the distance from the square root to [(p + q) / 2],
    [romper_rsa] returns the plaintext of every ciphertext of a
    message [0 <= m < n], together with the difference of the two
    clock readings. *)
Theorem romper_rsa_recupera p q e m c K inicio fin :
  Z.prime p -> Z.prime q -> 2 < p < q ->
  0 <= e < 2 ^ 256 -> Z.gcd e ((p - 1) * (q - 1)) = 1 ->
  (p + q) / 2 - Z.sqrt_up (p * q) < K ->
  0 <= m < p * q ->
  cifrar_rsa m (p * q, e) = Ok c ->
  romper_rsa tiempo resta c (p * q, e) K inicio fin = Ok (Some m, resta fin inicio).
Proof.
  intros Hp Hq Hpq He Hg HK Hm Hc.
  unfold romper_rsa.
  rewrite ataque_de_fermat_primos by (auto; lia). cbn [rbind].
  assert (Hphi : 2 <= (p - 1) * (q - 1)) by nia.
  assert (Hbits : 2 * bit_length e + 2 <= Z.of_nat marcos_libres).
  { assert (bit_length e <= 256).
    { unfold bit_length. destruct (Z.eqb_spec e 0); [lia|].
      rewrite Z.abs_eq by lia.
      assert (Z.log2 e < 256) by (apply Z.log2_lt_pow2; lia). lia. }
    replace (Z.of_nat marcos_libres) with 997 by (vm_compute; reflexivity). lia. }
  destruct (inverso_modular_spec marcos_libres e ((p - 1) * (q - 1))
              ltac:(lia) ltac:(lia) Hbits) as [Hok _].
  destruct (Hok Hg) as (d & Hd & Hrange & Hinv).
  rewrite Hd. cbn [rbind].
  rewrite Z.mod_1_l in Hinv by lia.
  assert (He0 : 0 < e).
  { destruct (Z.eq_dec e 0) as [->|]; [|lia].
    rewrite Z.mul_0_l, Z.mod_0_l in Hinv; lia. }
  pose proof (rsa_ida_y_vuelta p q e d m Hp Hq ltac:(lia) He0 ltac:(lia) Hinv Hm) as Hrt.
  rewrite Hc in Hrt. cbn [rbind] in Hrt. rewrite Hrt. reflexivity.
Qed.

End RelojProps.

Lemma romper_rsa_recupera_witness :
  romper_rsa Z Z.sub 195 (17 * 19, 65537) 1 100 103 = Ok (Some 42, 103 - 100).
Proof.
  apply (romper_rsa_recupera Z Z.sub 17 19 65537 42 195 1 100 103);
    [exact primo_17|exact primo_19|lia|lia|reflexivity|reflexivity|lia|reflexivity].
Defined.

(** With a public exponent as long as the modulus the recursion can
    be deeper than the frames left; see [mcd_extendido_fibonacci]. *)

(** ** Text and integers *)

Lemma byte_a_Z_rango b : 0 <= byte_a_Z b < 256.
Proof. unfold byte_a_Z. pose proof (Byte.to_N_bounded b). lia. Qed.

Lemma Z_a_byte_a_Z b : Z_a_byte (byte_a_Z b) = b.
Proof. unfold Z_a_byte, byte_a_Z. rewrite N2Z.id, Byte.of_to_N. reflexivity. Qed.

Lemma byte_a_Z_a_byte z : 0 <= z < 256 -> byte_a_Z (Z_a_byte z) = z.
Proof.
  intros Hz. unfold Z_a_byte, byte_a_Z.
  destruct (Byte.of_N (Z.to_N z)) as [b|] eqn:E.
  - apply Byte.to_of_N in E. rewrite E. lia.
  - apply Byte.of_N_None_iff in E. lia.
Qed.

Lemma byte_a_Z_cero b : byte_a_Z b = 0 -> b = x00.
Proof. intros H. rewrite <- (Z_a_byte_a_Z b), H. reflexivity. Qed.

Lemma int_from_bytes_app data b :
  int_from_bytes (data ++ [b]) = int_from_bytes data * 256 + byte_a_Z b.
Proof. unfold int_from_bytes. rewrite fold_left_app. reflexivity. Qed.

Lemma fold_acc data : forall acc,
  fold_left (fun acc b => acc * 256 + byte_a_Z b) data acc =
  acc * 256 ^ Z.of_nat (length data) + int_from_bytes data.
Proof.
  unfold int_from_bytes.
  induction data as [|b data IH]; intros acc.
  - cbn [fold_left length]. change (Z.of_nat 0) with 0. rewrite Z.pow_0_r. lia.
  - cbn [fold_left length]. rewrite IH, (IH (0 * 256 + byte_a_Z b)).
    rewrite Nat2Z.inj_succ, Z.pow_succ_r by lia. ring.
Qed.

Lemma int_from_bytes_cons b data :
  int_from_bytes (b :: data) =
  byte_a_Z b * 256 ^ Z.of_nat (length data) + int_from_bytes data.
Proof.
  unfold int_from_bytes at 1. cbn [fold_left]. rewrite fold_acc. f_equal.
Qed.

Lemma int_from_bytes_big_endian data :
  int_from_bytes data = entero_big_endian data.
Proof.
  induction data as [|b data IH]; [reflexivity|].
  rewrite int_from_bytes_cons, IH. reflexivity.
Qed.

Lemma int_from_bytes_rango data :
  0 <= int_from_bytes data < 256 ^ Z.of_nat (length data).
Proof.
  induction data as [|b data IH] using rev_ind.
  - unfold int_from_bytes. simpl. lia.
  - rewrite int_from_bytes_app, length_app, Nat2Z.inj_add. cbn [length].
    change (Z.of_nat 1) with 1. rewrite Z.pow_add_r, Z.pow_1_r by lia.
    pose proof (byte_a_Z_rango b). nia.
Qed.

Lemma bytes_big_from_bytes data :
  bytes_big (length data) (int_from_bytes data) = data.
Proof.
  induction data as [|b data IH] using rev_ind; [reflexivity|].
  rewrite int_from_bytes_app, length_app. cbn [length].
  rewrite Nat.add_1_r. cbn [bytes_big].
  pose proof (byte_a_Z_rango b).
  rewrite Z.div_add_l, Z.div_small, Z.add_0_r by lia.
  rewrite Z.add_comm, Z.mod_add, Z.mod_small by lia.
  rewrite IH, Z_a_byte_a_Z. reflexivity.
Qed.

Lemma from_bytes_bytes_big l : forall n,
  0 <= n < 256 ^ Z.of_nat l -> int_from_bytes (bytes_big l n) = n.
Proof.
  induction l as [|l IH]; intros n Hn.
  - change (256 ^ Z.of_nat 0) with 1 in Hn. unfold int_from_bytes. simpl. lia.
  - cbn [bytes_big]. rewrite int_from_bytes_app.
    rewrite Nat2Z.inj_succ, Z.pow_succ_r in Hn by lia.
    pose proof (Z.mod_pos_bound n 256 ltac:(lia)).
    rewrite byte_a_Z_a_byte by assumption.
    rewrite IH.
    + pose proof (Z.div_mod n 256 ltac:(lia)). lia.
    + split; [apply Z.div_pos; lia|].
      apply Z.div_lt_upper_bound; lia.
Qed.

Lemma length_bytes_big l : forall n, length (bytes_big l n) = l.
Proof.
  induction l as [|l IH]; intros n; [reflexivity|].
  cbn [bytes_big]. rewrite length_app, IH. simpl. lia.
Qed.

Lemma int_from_bytes_sin_ceros data :
  int_from_bytes (sin_ceros data) = int_from_bytes data.
Proof.
  induction data as [|b data IH]; [reflexivity|].
  rewrite (int_from_bytes_cons b data).
  destruct (Z.eq_dec (byte_a_Z b) 0) as [H0|Hnz].
  - rewrite H0. apply byte_a_Z_cero in H0. subst b. cbn [sin_ceros].
    rewrite IH. lia.
  - assert (Hs : sin_ceros (b :: data) = b :: data).
    { destruct b; try reflexivity. exfalso. apply Hnz. reflexivity. }
    rewrite Hs. apply int_from_bytes_cons.
Qed.


Lemma longitud_minima_cota n :
  0 <= n -> 0 <= longitud_minima n /\ n < 256 ^ longitud_minima n.
Proof.
  intros Hn. unfold longitud_minima.
  destruct (Z.eq_dec n 0) as [->|Hnz]; [split; [discriminate|reflexivity]|].
  rewrite bit_length_pos by lia.
  pose proof (Z.log2_nonneg n).
  pose proof (Z.log2_spec n ltac:(lia)) as [_ Hhi].
  set (l := Z.log2 n) in *.
  pose proof (Z.div_mod (l + 1 + 7) 8 ltac:(lia)).
  pose proof (Z.mod_pos_bound (l + 1 + 7) 8 ltac:(lia)).
  assert (0 <= (l + 1 + 7) / 8) by (apply Z.div_pos; lia).
  split; [assumption|].
  change 256 with (2 ^ 8). rewrite <- Z.pow_mul_r by lia.
  eapply Z.lt_le_trans; [exact Hhi|].
  apply Z.pow_le_mono_r; lia.
Qed.

Lemma longitud_minima_sin_ceros data :
  sin_ceros data = data ->
  longitud_minima (int_from_bytes data) = Z.of_nat (length data).
Proof.
  intros Hs. destruct data as [|b data]; [reflexivity|].
  assert (Hb : 1 <= byte_a_Z b).
  { pose proof (byte_a_Z_rango b).
    destruct (Z.eq_dec (byte_a_Z b) 0) as [H0|]; [|lia].
    apply byte_a_Z_cero in H0. subst b. cbn [sin_ceros] in Hs.
    exfalso. pose proof (int_from_bytes_sin_ceros data) as E.
    rewrite Hs in E.
    rewrite (int_from_bytes_cons x00 data) in E.
    assert (L : length (sin_ceros data) = length (x00 :: data)) by (rewrite Hs; reflexivity).
    clear - L.
    assert (forall d, (length (sin_ceros d) <= length d)%nat).
    { induction d as [|c d IH]; [simpl; lia|].
      destruct c; cbn [sin_ceros length]; lia. }
    specialize (H data). cbn [length] in L. lia. }
  pose proof (int_from_bytes_rango (b :: data)) as [_ Hhi].
  pose proof (int_from_bytes_rango data) as [Hlo' _].
  rewrite int_from_bytes_cons in *.
  set (n := byte_a_Z b * 256 ^ Z.of_nat (length data) + int_from_bytes data) in *.
  set (l := Z.of_nat (length data)) in *.
  assert (Hl : 0 <= l) by (unfold l; lia).
  assert (Hp : 0 < 256 ^ l) by (apply Z.pow_pos_nonneg; lia).
  assert (Hlow : 256 ^ l <= n) by (unfold n; nia).
  cbn [length] in Hhi |- *. rewrite Nat2Z.inj_succ in Hhi |- *. fold l in Hhi |- *.
  unfold longitud_minima. rewrite bit_length_pos by lia.
  change 256 with (2 ^ 8) in Hlow, Hhi. rewrite <- Z.pow_mul_r in Hlow, Hhi by lia.
  assert (8 * l <= Z.log2 n) by (apply Z.log2_le_pow2; lia).
  assert (Z.log2 n < 8 * Z.succ l) by (apply Z.log2_lt_pow2; lia).
  pose proof (Z.div_mod (Z.log2 n + 1 + 7) 8 ltac:(lia)).
  pose proof (Z.mod_pos_bound (Z.log2 n + 1 + 7) 8 ltac:(lia)).
  lia.
Qed.

Lemma sin_ceros_idem data : sin_ceros (sin_ceros data) = sin_ceros data.
Proof.
  induction data as [|b data IH]; [reflexivity|].
  destruct b; try reflexivity. exact IH.
Qed.

(** Writing back the integer read from [data] gives [data] without
    its leading zero bytes. *)
Lemma int_to_bytes_from_bytes data :
  int_to_bytes (int_from_bytes data) (longitud_minima (int_from_bytes data))
  = Valor (sin_ceros data).
Proof.
  rewrite <- (int_from_bytes_sin_ceros data).
  set (d := sin_ceros data).
  assert (Hd : sin_ceros d = d) by apply sin_ceros_idem.
  rewrite (longitud_minima_sin_ceros d Hd).
  pose proof (int_from_bytes_rango d) as [Hlo Hhi].
  unfold int_to_bytes.
  destruct (Z.ltb_spec (int_from_bytes d) 0); [lia|].
  destruct (Z.leb_spec (256 ^ Z.of_nat (length d)) (int_from_bytes d)); [lia|].
  rewrite Nat2Z.id, bytes_big_from_bytes. reflexivity.
Qed.

(** The minimal length is enough for [to_bytes], and reading the
    bytes gives the integer back. *)
Lemma int_from_bytes_to_bytes n :
  0 <= n ->
  exists data, int_to_bytes n (longitud_minima n) = Valor data /\
               int_from_bytes data = n.
Proof.
  intros Hn. destruct (longitud_minima_cota n Hn) as [Hl Hlt].
  unfold int_to_bytes.
  destruct (Z.ltb_spec n 0); [lia|].
  destruct (Z.leb_spec (256 ^ longitud_minima n) n); [lia|].
  eexists. split; [reflexivity|].
  apply from_bytes_bytes_big. rewrite Z2Nat.id by lia. lia.
Qed.

Section TextoProps.

Variable str : Type.
Variable encode : str -> option (list byte).
Variable decode : list byte -> option str.

(** X21: [texto_a_entero] of a text that encodes to [data] returns
    the big-endian integer of [data], the sum of its bytes weighted by
    the powers of 256 with the first byte the most significant; it is
    not negative and below [256 ^ len(data)]. *)
Theorem texto_a_entero_rango texto data :
  encode texto = Some data ->
  texto_a_entero str encode texto = Valor (entero_big_endian data) /\
  0 <= entero_big_endian data < 256 ^ Z.of_nat (length data).
Proof.
  intros He. unfold texto_a_entero. rewrite He.
  rewrite <- int_from_bytes_big_endian.
  split; [reflexivity|apply int_from_bytes_rango].
Qed.

(** X22: [entero_a_texto] applied to the integer of a text decodes
    the encoding of that text without its leading zero bytes: the
    integer does not record them. *)
Theorem entero_a_texto_de_texto texto data n :
  encode texto = Some data ->
  texto_a_entero str encode texto = Valor n ->
  entero_a_texto str decode n =
    match decode (sin_ceros data) with
    | Some t => Valor t
    | None => Error UnicodeDecodeError
    end.
Proof.
  intros He Hn. unfold texto_a_entero in Hn. rewrite He in Hn.
  injection Hn as <-. unfold entero_a_texto.
  fold (longitud_minima (int_from_bytes data)).
  rewrite int_to_bytes_from_bytes. reflexivity.
Qed.

(** X23: a text whose encoding does not start with a zero byte, and
    which the codec decodes back, survives the round trip
    [entero_a_texto(texto_a_entero(texto))]. *)
Theorem texto_ida_y_vuelta texto data :
  encode texto = Some data ->
  decode data = Some texto ->
  hd_error data <> Some x00 ->
  exists n, texto_a_entero str encode texto = Valor n /\
            entero_a_texto str decode n = Valor texto.
Proof.
  intros He Hd Hz. exists (int_from_bytes data).
  assert (Hn : texto_a_entero str encode texto = Valor (int_from_bytes data)).
  { unfold texto_a_entero. rewrite He. reflexivity. }
  split; [exact Hn|].
  unfold entero_a_texto. fold (longitud_minima (int_from_bytes data)).
  rewrite int_to_bytes_from_bytes.
  assert (Hs : sin_ceros data = data).
  { destruct data as [|b data]; [reflexivity|].
    destruct b; try reflexivity. exfalso. apply Hz. reflexivity. }
  rewrite Hs, Hd. reflexivity.
Qed.

(** X24: [entero_a_texto] raises [OverflowError] for a negative
    integer; for [n >= 0], if it returns a text and the codec encodes
    what it decodes, [texto_a_entero] of that text is [n] again. *)
Theorem entero_ida_y_vuelta n :
  (n < 0 -> entero_a_texto str decode n = Error OverflowError) /\
  (0 <= n ->
   forall texto, entero_a_texto str decode n = Valor texto ->
     (forall data, decode data = Some texto -> encode texto = Some data) ->
     texto_a_entero str encode texto = Valor n).
Proof.
  split.
  - intros Hn. unfold entero_a_texto, int_to_bytes.
    destruct (Z.ltb_spec n 0); [reflexivity|lia].
  - intros Hn texto Ht Hcodec. unfold entero_a_texto in Ht.
    fold (longitud_minima n) in Ht.
    destruct (int_from_bytes_to_bytes n Hn) as (data & Hb & Hf).
    rewrite Hb in Ht. destruct (decode data) as [t|] eqn:Hd; [|discriminate Ht].
    injection Ht as ->.
    unfold texto_a_entero. rewrite (Hcodec data Hd), Hf. reflexivity.
Qed.

End TextoProps.

(** The witnesses use the codec of byte strings, which encodes a
    string of bytes as itself. *)
Lemma texto_a_entero_rango_witness :
  texto_a_entero (list byte) Some [x68; x6f; x6c; x61]
    = Valor (entero_big_endian [x68; x6f; x6c; x61]) /\
  0 <= entero_big_endian [x68; x6f; x6c; x61]
    < 256 ^ Z.of_nat (length [x68; x6f; x6c; x61]).
Proof.
  apply (texto_a_entero_rango (list byte) Some [x68; x6f; x6c; x61]).
  reflexivity.
Defined.

Example entero_big_endian_hola :
  entero_big_endian [x68; x6f; x6c; x61]
  = 104 * 256 ^ 3 + 111 * 256 ^ 2 + 108 * 256 + 97.
Proof. reflexivity. Qed.

Lemma entero_a_texto_de_texto_witness :
  entero_a_texto (list byte) Some 26721 =
    match Some (sin_ceros [x00; x68; x61]) with
    | Some t => Valor t
    | None => Error UnicodeDecodeError
    end.
Proof.
  apply (entero_a_texto_de_texto (list byte) Some Some [x00; x68; x61] [x00; x68; x61] 26721);
    reflexivity.
Defined.

Lemma texto_ida_y_vuelta_witness :
  exists n, texto_a_entero (list byte) Some [x68; x6f; x6c; x61] = Valor n /\
            entero_a_texto (list byte) Some n = Valor [x68; x6f; x6c; x61].
Proof.
  apply (texto_ida_y_vuelta (list byte) Some Some [x68; x6f; x6c; x61] [x68; x6f; x6c; x61]).
  - reflexivity.
  - reflexivity.
  - discriminate.
Defined.

Lemma entero_ida_y_vuelta_witness :
  entero_a_texto (list byte) Some (-5) = Error OverflowError /\
  texto_a_entero (list byte) Some [x68; x61] = Valor 26721.
Proof.
  split.
  - apply (proj1 (entero_ida_y_vuelta (list byte) Some Some (-5))). lia.
  - apply (proj2 (entero_ida_y_vuelta (list byte) Some Some 26721)).
    + lia.
    + reflexivity.
    + intros data Hd. symmetry. exact Hd.
Defined.
